(** * The event store adapter of the local provider

    A shallow embedding of
    [packages/framework-provider-local/src/library/events-adapter.ts]:
    [readEntityEventsSince], [readEntityLatestSnapshot], [storeEvents],
    [storeSnapshot] and the private [persistEvent].

    The adapter is asynchronous JavaScript that talks to three collaborators:
    the event registry, the event dispatcher of the user application and the
    wall clock.  Every [await] of the source is a sequencing point, so a call
    is embedded as a function from the world before the call to a result
    (a value or a thrown error) and the world after it.  The world holds the
    JavaScript object heap (envelopes are objects handed around by reference),
    the durable content of the registry, and the history of the calls made to
    the collaborators. *)

From stdpp Require Import base strings gmap list fin_maps sorting.
From Stdlib Require Import ZArith OrderedTypeEx.

Open Scope string_scope.
Open Scope list_scope.

(** ** JavaScript values, objects and errors *)

(** Object references. *)
Abbreviation loc := positive.

(** The property values an envelope can hold: strings (identifiers,
    timestamps, the kind discriminator), numbers, and references to nested
    objects (the payload in [value]). *)
Inductive JsVal : Type :=
  | VUndefined
  | VStr (s : string)
  | VNum (n : Z)
  | VRef (l : loc).

#[global] Instance JsVal_eq_dec : EqDecision JsVal.
Proof. solve_decision. Defined.

(** An object is a finite map from property names to values.  An envelope
    typed [NonPersistedEventEnvelope] is an object in which the property
    [persistedAt] is not set. *)
Abbreviation Obj := (gmap string JsVal).

(** Error classes.  The adapter names one class only; every other class is
    kept by name. *)
Inductive ErrorClass : Type :=
  | OptimisticConcurrencyUnexpectedVersionError
  | OtherError (name : string).

#[global] Instance ErrorClass_eq_dec : EqDecision ErrorClass.
Proof. solve_decision. Defined.

Record JsError : Type := mkError {
  error_class : ErrorClass;
  error_message : string;
}.

#[global] Instance JsError_eq_dec : EqDecision JsError.
Proof. solve_decision. Defined.

(** The query object handed to the registry:
    [{ entityID, entityTypeName, kind, createdAt: { $gt: ... } }];
    [q_createdAt_gt] is [None] when the query has no [createdAt] property. *)
Record Query : Type := mkQuery {
  q_entityID : string;
  q_entityTypeName : string;
  q_kind : string;
  q_createdAt_gt : option string;
}.

(** ** The world *)

(** Calls that leave the adapter, in the order they are made. *)
Inductive Event : Type :=
  | EvLog (location message : string)
  | EvNow (isoString : string)
  | EvStore (record : loc) (content : Obj) (outcome : option JsError)
  | EvQuery (q : Query)
  | EvQueryLatestSnapshot (q : Query)
  | EvBackoff
  | EvDispatch (batch : list loc) (contents : list Obj)
               (outcome : option JsError).

Record World : Type := mkWorld {
  heap : gmap loc Obj;        (* the JavaScript objects alive *)
  db : list Obj;              (* records the registry holds, oldest first *)
  trace : list Event;         (* history of outgoing calls *)
  n_now : nat;                (* clock readings so far *)
  n_store : nat;              (* calls of eventRegistry.store so far *)
  n_query : nat;              (* calls of query / queryLatestSnapshot so far *)
  n_dispatch : nat;           (* calls of boosterEventDispatcher so far *)
}.

Definition set_heap (h : gmap loc Obj) (w : World) : World :=
  mkWorld h (db w) (trace w) (n_now w) (n_store w) (n_query w) (n_dispatch w).

Definition log_event (e : Event) (w : World) : World :=
  mkWorld (heap w) (db w) (trace w ++ [e]) (n_now w) (n_store w) (n_query w)
          (n_dispatch w).

(** The content of the object behind a reference; spreading a reference
    that holds nothing yields no property. *)
Definition deref (w : World) (l : loc) : Obj := default ∅ (heap w !! l).

(** ** Results and sequencing *)

Inductive Result (A : Type) : Type :=
  | Ok (a : A)
  | Throw (e : JsError).
Arguments Ok {A} a.
Arguments Throw {A} e.

(** An asynchronous computation: run from a world, it resolves with a value
    or rejects with an error, and leaves a world. *)
Definition M (A : Type) : Type := World -> Result A * World.

Definition ret {A} (a : A) : M A := fun w => (Ok a, w).

(** [await m] followed by the rest of the function body: a rejection of [m]
    leaves the body at once. *)
Definition bind {A B} (m : M A) (k : A -> M B) : M B :=
  fun w =>
    match m w with
    | (Ok a, w') => k a w'
    | (Throw e, w') => (Throw e, w')
    end.

Declare Scope js_scope.
Delimit Scope js_scope with js.
Notation "x <- c1 ;; c2" := (bind c1 (fun x => c2))
  (at level 100, c1 at next level, right associativity) : js_scope.
Notation "c1 ;;; c2" := (bind c1 (fun _ => c2))
  (at level 100, right associativity) : js_scope.
Open Scope js_scope.

(** [for (const x of xs) { await body(x) }] *)
Fixpoint forOf {A} (xs : list A) (body : A -> M unit) : M unit :=
  match xs with
  | [] => ret tt
  | x :: rest => body x ;;; forOf rest body
  end.

(** A fresh object literal: allocated where no object lives yet. *)
Definition newObject (o : Obj) : M loc :=
  fun w =>
    let l := fresh (dom (heap w)) in
    (Ok l, set_heap (<[l := o]> (heap w)) w).

(** [{ ...source }]: the own properties of the object behind [source]. *)
Definition spread (source : loc) : M Obj :=
  fun w => (Ok (deref w source), w).

(** ** The platform: wall clock and retry bound *)

(** [clock n] is what the [n]-th evaluation of [new Date().toISOString()]
    returns.  [maxAttempts] is the attempt bound the retry policy runs with
    when the caller passes none, as both callers in the adapter do; its
    value is not part of the adapter. *)
Class Platform : Type := {
  clock : nat -> string;
  maxAttempts : nat;
}.

(** Modelled from the spec: the configuration value threaded through every
    operation to obtain a logging handle; the adapter reads nothing else
    from it. *)
Record BoosterConfig : Type := mkConfig {
  appName : string;
}.

(** Modelled from the spec: the logging handle of
    [@boostercloud/framework-common-helpers], "purely observational, never
    affects control flow".  A handle is the location it was created for. *)
Definition Logger : Type := string.

Definition getLogger (config : BoosterConfig) (location : string) : Logger :=
  location.

Definition logger_debug (logger : Logger) (message : string) : M unit :=
  fun w => (Ok tt, log_event (EvLog logger message) w).

(** ** The event registry port *)

(** The registry is a collaborator of the adapter.  What it decides on its
    own is given by two scripts: the outcome of the [n]-th call of [store]
    and the outcome of the [n]-th query.  [None] is success. *)
Record EventRegistry : Type := mkRegistry {
  store_outcome : nat -> option JsError;
  query_outcome : nat -> option JsError;
}.

(** The dispatcher of the user application, by the outcome of its [n]-th
    call. *)
Record UserApp : Type := mkUserApp {
  dispatch_outcome : nat -> option JsError;
}.

(** How a call with a scripted outcome settles. *)
Definition settle (outcome : option JsError) : Result unit :=
  match outcome with
  | None => Ok tt
  | Some e => Throw e
  end.

Definition strProp (o : Obj) (name : string) : option string :=
  match o !! name with
  | Some (VStr s) => Some s
  | _ => None
  end.

(** The sort key of a record; a record without a string [createdAt] sorts
    first. *)
Definition createdAt_of (o : Obj) : string :=
  default "" (strProp o "createdAt").

(** [$gt] on strings: code-unit order, strict. *)
Definition str_gt (a b : string) : bool := String.ltb b a.

Definition matches (q : Query) (o : Obj) : bool :=
  bool_decide (o !! "entityID" = Some (VStr (q_entityID q)))
  && bool_decide (o !! "entityTypeName" = Some (VStr (q_entityTypeName q)))
  && bool_decide (o !! "kind" = Some (VStr (q_kind q)))
  && match q_createdAt_gt q with
     | None => true
     | Some bound =>
         match strProp o "createdAt" with
         | Some c => str_gt c bound
         | None => false
         end
     end.

(** Stable insertion by ascending [createdAt]. *)
Fixpoint insert_by_createdAt (o : Obj) (sorted : list Obj) : list Obj :=
  match sorted with
  | [] => [o]
  | x :: rest =>
      if String.ltb (createdAt_of o) (createdAt_of x)
      then o :: x :: rest
      else x :: insert_by_createdAt o rest
  end.

Definition sort_by_createdAt (l : list Obj) : list Obj :=
  foldl (fun acc o => insert_by_createdAt o acc) [] l.

Module EventRegistry.

(** Modelled from the spec: [store(record)] "persists exactly one record"
    or fails; the class of services/event-registry.ts is not part of the
    sources at hand.  The record handed over is read through its
    reference at the time of the call. *)
Definition store (eventRegistry : EventRegistry) (storableObject : loc)
  : M unit :=
  fun w =>
    let content := deref w storableObject in
    let outcome := store_outcome eventRegistry (n_store w) in
    let w' :=
      mkWorld (heap w)
              (match outcome with
               | None => db w ++ [content]
               | Some _ => db w
               end)
              (trace w ++ [EvStore storableObject content outcome])
              (n_now w) (S (n_store w)) (n_query w) (n_dispatch w) in
    (settle outcome, w').

Definition count_query (e : Event) (w : World) : World :=
  mkWorld (heap w) (db w) (trace w ++ [e]) (n_now w) (n_store w)
          (S (n_query w)) (n_dispatch w).

(** Modelled from the spec: [query(filter)] "returns all records matching
    entityID, entityTypeName, kind, and createdAt strictly greater than a
    supplied lower bound, ordered ascending by createdAt". *)
Definition query (eventRegistry : EventRegistry) (q : Query)
  : M (list Obj) :=
  fun w =>
    let w' := count_query (EvQuery q) w in
    match query_outcome eventRegistry (n_query w) with
    | Some e => (Throw e, w')
    | None =>
        (Ok (sort_by_createdAt (filter (fun o => matches q o) (db w))), w')
    end.

(** Modelled from the spec: [queryLatestSnapshot(filter)] "returns the
    single most recent snapshot for (entityTypeName, entityID), or an
    explicit not found signal". *)
Definition queryLatestSnapshot (eventRegistry : EventRegistry) (q : Query)
  : M (option Obj) :=
  fun w =>
    let w' := count_query (EvQueryLatestSnapshot q) w in
    match query_outcome eventRegistry (n_query w) with
    | Some e => (Throw e, w')
    | None =>
        (Ok (last (sort_by_createdAt
                     (filter (fun o => matches q o) (db w)))), w')
    end.

End EventRegistry.

(** Modelled from the spec: [userApp.boosterEventDispatcher], the dispatch
    sink, "a single function accepting the persisted batch (in
    pre-persistence form) and returning success/failure asynchronously".
    The dispatcher is handed the array itself; what it sees behind each
    reference is what the heap holds at the time of the call. *)
Definition boosterEventDispatcher (userApp : UserApp)
    (eventEnvelopes : list loc) : M unit :=
  fun w =>
    let contents := map (deref w) eventEnvelopes in
    let outcome := dispatch_outcome userApp (n_dispatch w) in
    let w' :=
      mkWorld (heap w) (db w)
              (trace w ++ [EvDispatch eventEnvelopes contents outcome])
              (n_now w) (n_store w) (n_query w) (S (n_dispatch w)) in
    (settle outcome, w').

Section Adapter.

Context {platform : Platform}.

(** [new Date().toISOString()] *)
Definition newDateISOString : M string :=
  fun w =>
    let t := clock (n_now w) in
    (Ok t,
     mkWorld (heap w) (db w) (trace w ++ [EvNow t]) (S (n_now w))
             (n_store w) (n_query w) (n_dispatch w)).

(** ** The retry policy *)

(** The pause between two attempts; only its place in the history is
    kept. *)
Definition backoff : M unit :=
  fun w => (Ok tt, log_event EvBackoff w).

(** Modelled from the spec: [retryIfError] of
    [@boostercloud/framework-common-helpers].  "Invokes operation once.
    On success, returns immediately.  On failure whose kind equals
    conflictErrorKind, retries up to maxAttempts - 1 additional times,
    with a backoff delay between attempts.  On failure of any other kind,
    propagates immediately without retrying.  After exhausting attempts
    on a persistent conflict, propagates the conflict error to the
    caller."  The operation is invoked before the bound is looked at, so a
    bound of 0 allows one attempt, as a bound of 1 does. *)
Fixpoint retryLoop {A} (retriesLeft : nat) (logicToRetry : M A)
    (errorClassThatRetries : ErrorClass) : M A :=
  fun w =>
    match logicToRetry w with
    | (Ok a, w') => (Ok a, w')
    | (Throw e, w') =>
        if decide (error_class e = errorClassThatRetries) then
          match retriesLeft with
          | O => (Throw e, w')
          | S n =>
              (backoff ;;; retryLoop n logicToRetry errorClassThatRetries) w'
          end
        else (Throw e, w')
    end.

Definition retryIfError {A} (logicToRetry : M A)
    (errorClassThatRetries : ErrorClass) : M A :=
  retryLoop (maxAttempts - 1) logicToRetry errorClassThatRetries.

(** ** events-adapter.ts *)

(** [new Date(0).toISOString()] *)
Definition originOfTime : string := "1970-01-01T00:00:00.000Z".

(** Truthiness of an optional string: [undefined] and the empty string
    are falsy. *)
Definition truthy (s : option string) : bool :=
  match s with
  | Some "" => false
  | Some _ => true
  | None => false
  end.

Definition readEntityEventsSince (eventRegistry : EventRegistry)
    (config : BoosterConfig) (entityTypeName : string) (entityID : string)
    (since : option string) : M (list Obj) :=
  let logger := getLogger config "events-adapter#readEntityEventsSince" in
  let fromTime :=
    if truthy since then default originOfTime since else originOfTime in
  let query :=
    {| q_entityID := entityID;
       q_entityTypeName := entityTypeName;
       q_kind := "event";
       q_createdAt_gt := Some fromTime |} in
  result <- EventRegistry.query eventRegistry query ;;
  logger_debug logger
    ("Loaded events for entity " +:+ entityTypeName +:+ " with ID "
       +:+ entityID +:+ " with result:") ;;;
  ret result.

Definition readEntityLatestSnapshot (eventRegistry : EventRegistry)
    (config : BoosterConfig) (entityTypeName : string) (entityID : string)
    : M (option Obj) :=
  let logger := getLogger config "events-adapter#readEntityLatestSnapshot" in
  let query :=
    {| q_entityID := entityID;
       q_entityTypeName := entityTypeName;
       q_kind := "snapshot";
       q_createdAt_gt := None |} in
  snapshot <- EventRegistry.queryLatestSnapshot eventRegistry query ;;
  match snapshot with
  | Some s =>
      logger_debug logger
        ("Snapshot found for entity " +:+ entityTypeName +:+ " with ID "
           +:+ entityID +:+ ":") ;;;
      ret (Some s)
  | None =>
      logger_debug logger
        ("No snapshot found for entity " +:+ entityTypeName +:+ " with ID "
           +:+ entityID +:+ ".") ;;;
      ret None
  end.

(** The private helper: a new object with the properties of the envelope
    and [persistedAt] set from the clock, handed to the registry. *)
Definition persistEvent (eventRegistry : EventRegistry)
    (eventEnvelope : loc) : M unit :=
  copied <- spread eventEnvelope ;;
  now <- newDateISOString ;;
  persistableEvent <- newObject (<["persistedAt" := VStr now]> copied) ;;
  EventRegistry.store eventRegistry persistableEvent.

Definition storeEvents (userApp : UserApp) (eventRegistry : EventRegistry)
    (eventEnvelopes : list loc) (config : BoosterConfig) : M unit :=
  let logger := getLogger config "events-adapter#storeEvents" in
  logger_debug logger "Storing the following event envelopes:" ;;;
  forOf eventEnvelopes (fun eventEnvelope =>
    retryIfError (persistEvent eventRegistry eventEnvelope)
                 OptimisticConcurrencyUnexpectedVersionError) ;;;
  logger_debug logger "EventEnvelopes stored" ;;;
  boosterEventDispatcher userApp eventEnvelopes.

Definition storeSnapshot (eventRegistry : EventRegistry)
    (snapshotEnvelope : loc) (config : BoosterConfig) : M unit :=
  let logger := getLogger config "events-adapter#storeSnapshot" in
  logger_debug logger "Storing the following snapshot envelope:" ;;;
  retryIfError (EventRegistry.store eventRegistry snapshotEnvelope)
               OptimisticConcurrencyUnexpectedVersionError ;;;
  logger_debug logger "Snapshot stored".

End Adapter.

(** The body of the loop of [storeEvents]: the store of one envelope under
    the retry policy. *)
Definition guardedPersist `{Platform} (eventRegistry : EventRegistry)
    (eventEnvelope : loc) : M unit :=
  retryIfError (persistEvent eventRegistry eventEnvelope)
               OptimisticConcurrencyUnexpectedVersionError.

(** ** Reading the history *)

(** What a call added to the history. *)
Definition history (w w' : World) : list Event :=
  drop (length (trace w)) (trace w').

(** A store attempt as the registry saw it: the record and the outcome. *)
Abbreviation Attempt := (Obj * option JsError)%type.

(** The clock readings and store attempts of a history, in order. *)
Definition timeline_of (e : Event) : option (string + Attempt) :=
  match e with
  | EvNow t => Some (inl t)
  | EvStore _ content outcome => Some (inr (content, outcome))
  | _ => None
  end.

Definition timeline (tr : list Event) : list (string + Attempt) :=
  omap timeline_of tr.

Definition attempt_of (e : Event) : option Attempt :=
  match e with
  | EvStore _ content outcome => Some (content, outcome)
  | _ => None
  end.

Definition store_attempts (tr : list Event) : list Attempt :=
  omap attempt_of tr.

(** The records of the attempts that succeeded. *)
Definition stored_of (a : Attempt) : option Obj :=
  match a with
  | (content, None) => Some content
  | (_, Some _) => None
  end.

Definition stored_records (tr : list Event) : list Obj :=
  omap stored_of (store_attempts tr).

(** The calls of the dispatcher: the array, what was behind its references,
    and the outcome. *)
Definition dispatch_of (e : Event)
    : option (list loc * list Obj * option JsError) :=
  match e with
  | EvDispatch batch contents outcome => Some (batch, contents, outcome)
  | _ => None
  end.

Definition dispatch_calls (tr : list Event)
    : list (list loc * list Obj * option JsError) :=
  omap dispatch_of tr.

(** The record [persistEvent] builds from the content of an envelope. *)
Definition persisted (o : Obj) (t : string) : Obj :=
  <["persistedAt" := VStr t]> o.

Definition conflict (e : JsError) : Prop :=
  error_class e = OptimisticConcurrencyUnexpectedVersionError.

(** A reference a caller can hold points to an object. *)
Definition live (w : World) (l : loc) : Prop := l ∈ dom (heap w).

(** The outcomes of the attempts the retry policy makes with [n] retries
    left, and how the guarded call settles: every attempt but the last
    failed with the conflict class; the last one succeeded, failed with
    another class, or failed with the conflict class when no retry was
    left.  The guarded call settles as its last attempt did. *)
Inductive retry_shape : nat -> list (option JsError) -> Result unit -> Prop :=
  | rs_success n :
      retry_shape n [None] (Ok tt)
  | rs_other n e :
      ¬ conflict e ->
      retry_shape n [Some e] (Throw e)
  | rs_exhausted e :
      conflict e ->
      retry_shape 0 [Some e] (Throw e)
  | rs_retry n e rest r :
      conflict e ->
      retry_shape n rest r ->
      retry_shape (S n) (Some e :: rest) r.

(** The attempts made for one envelope of content [o]: the shape above, and
    every record handed over is [o] with [persistedAt] set. *)
Definition retry_block (o : Obj) (n : nat) (block : list Attempt)
    (r : Result unit) : Prop :=
  retry_shape n (map snd block) r
  ∧ Forall (fun a => ∃ t, fst a = persisted o t) block.

(** The attempts of a batch: one block per envelope, in the order of the
    batch; a block starts only after the block before it ended in success,
    and nothing follows a block that ended in failure. *)
Inductive sequential (n : nat)
    : list Obj -> list Attempt -> Result unit -> Prop :=
  | seq_done :
      sequential n [] [] (Ok tt)
  | seq_next o os block rest r :
      retry_block o n block (Ok tt) ->
      sequential n os rest r ->
      sequential n (o :: os) (block ++ rest) r
  | seq_stop o os block e :
      retry_block o n block (Throw e) ->
      sequential n (o :: os) block (Throw e).

(** A timeline in which every store attempt comes right after a clock
    reading and carries that reading as [persistedAt]; the readings are the
    consecutive readings number [i] to [j] of the clock. *)
Inductive stamped `{Platform}
    : nat -> list (string + Attempt) -> nat -> Prop :=
  | stamped_nil i :
      stamped i [] i
  | stamped_cons i o outcome rest j :
      o !! "persistedAt" = Some (VStr (clock i)) ->
      stamped (S i) rest j ->
      stamped i (inl (clock i) :: inr (o, outcome) :: rest) j.

(** From [w] to [w'] with [new] added to the history: objects alive stay
    as they are, nothing is dispatched or queried, the registry gains the
    records of the successful attempts in order, and the outcomes of the
    attempts follow the store script. *)
Record steps (eventRegistry : EventRegistry) (w w' : World)
    (new : list Event) : Prop := mkSteps {
  steps_trace : trace w' = trace w ++ new;
  steps_heap : heap w ⊆ heap w';
  steps_query : n_query w' = n_query w;
  steps_dispatch : n_dispatch w' = n_dispatch w;
  steps_no_dispatch : dispatch_calls new = [];
  steps_store : n_store w' = n_store w + length (store_attempts new);
  steps_db : db w' = db w ++ stored_records new;
  steps_script :
    map snd (store_attempts new)
    = map (fun i => store_outcome eventRegistry (n_store w + i))
          (seq 0 (length (store_attempts new)));
}.

(** Objects alive stay as they are. *)
Definition heap_kept (w w' : World) : Prop := heap w ⊆ heap w'.

(** The clock readings and store attempts added to the history are
    [stamped]. *)
Definition ticks `{Platform} (w w' : World) : Prop :=
  ∃ new, trace w' = trace w ++ new
         ∧ stamped (n_now w) (timeline new) (n_now w').

(** The outcomes [outs] are those the script gives for the calls number
    [s], [s + 1], ... *)
Definition follows (script : nat -> option JsError) (s : nat)
    (outs : list (option JsError)) : Prop :=
  outs = map script (seq s (length outs)).

(** Not later than: [a] is stored with a [createdAt] that is not after the
    one of [b]. *)
Definition not_later (a b : Obj) : Prop :=
  String.ltb (createdAt_of b) (createdAt_of a) = false.

(** ** A small scenario *)

Definition sampleClock (n : nat) : string :=
  "2024-05-01T10:00:0" +:+ String (Ascii.ascii_of_nat (48 + n)) ".000Z".

Definition samplePlatform : Platform :=
  {| clock := sampleClock; maxAttempts := 3 |}.

Definition sampleConfig : BoosterConfig := {| appName := "shop" |}.

Definition sampleEnvelope (createdAt : string) (payload : loc) : Obj :=
  <["entityID" := VStr "order-1"]>
    (<["entityTypeName" := VStr "Order"]>
       (<["kind" := VStr "event"]>
          (<["createdAt" := VStr createdAt]>
             (<["value" := VRef payload]> ∅)))).

Definition sampleSnapshot (createdAt : string) (payload : loc) : Obj :=
  <["kind" := VStr "snapshot"]> (sampleEnvelope createdAt payload).

(** Three envelopes and a snapshot on the heap (their payloads at 11..14),
    an empty registry, an empty history. *)
Definition sampleHeap : gmap loc Obj :=
  <[1%positive := sampleEnvelope "2024-04-30T08:00:00.000Z" 11]>
    (<[2%positive := sampleEnvelope "2024-04-30T08:00:01.000Z" 12]>
       (<[3%positive := sampleEnvelope "2024-04-30T08:00:02.000Z" 13]>
          (<[4%positive := sampleSnapshot "2024-04-30T08:00:03.000Z" 14]>
             (<[11%positive := ∅]>
                (<[12%positive := ∅]>
                   (<[13%positive := ∅]> (<[14%positive := ∅]> ∅))))))).

Definition sampleWorld : World :=
  {| heap := sampleHeap; db := []; trace := [];
     n_now := 0; n_store := 0; n_query := 0; n_dispatch := 0 |}.

Definition conflictError : JsError :=
  {| error_class := OptimisticConcurrencyUnexpectedVersionError;
     error_message := "unexpected version" |}.

Definition ioError : JsError :=
  {| error_class := OtherError "Error"; error_message := "disk full" |}.

(** Registries by their store script. *)
Definition healthyRegistry : EventRegistry :=
  {| store_outcome := fun _ => None; query_outcome := fun _ => None |}.

(** The first [k] store calls meet a conflict, the later ones succeed. *)
Definition conflictsThenOk (k : nat) : EventRegistry :=
  {| store_outcome :=
       fun n => if decide (n < k) then Some conflictError else None;
     query_outcome := fun _ => None |}.

(** Only the second store call succeeds, every other one meets a
    conflict. *)
Definition onlySecondCallSucceeds : EventRegistry :=
  {| store_outcome :=
       fun n => if decide (n = 1) then None else Some conflictError;
     query_outcome := fun _ => None |}.

Definition brokenRegistry : EventRegistry :=
  {| store_outcome := fun _ => Some ioError;
     query_outcome := fun _ => Some ioError |}.

Definition healthyApp : UserApp := {| dispatch_outcome := fun _ => None |}.

Definition failingApp (e : JsError) : UserApp :=
  {| dispatch_outcome := fun _ => Some e |}.

(** A registry that already holds two events and two snapshots of
    [order-1]. *)
Definition sampleStoredWorld : World :=
  {| heap := sampleHeap;
     db := [ sampleEnvelope "2024-04-30T08:00:01.000Z" 12;
             sampleSnapshot "2024-04-30T08:00:05.000Z" 14;
             sampleEnvelope "2024-04-30T08:00:00.000Z" 11;
             sampleSnapshot "2024-04-30T08:00:03.000Z" 14 ];
     trace := []; n_now := 0; n_store := 0; n_query := 0; n_dispatch := 0 |}.

(** Two envelopes stored against a registry whose first call meets a
    conflict: the first envelope needs one retry. *)
Abbreviation retriedRun :=
  (storeEvents (platform := samplePlatform) healthyApp (conflictsThenOk 1)
     [1; 2]%positive sampleConfig sampleWorld).

(** Three envelopes; the first is stored at its second attempt, the second
    never. *)
Abbreviation stuckRun :=
  (storeEvents (platform := samplePlatform) healthyApp onlySecondCallSucceeds
     [1; 2; 3]%positive sampleConfig sampleWorld).

(** Two envelopes stored at once, then a dispatcher that fails with [e]. *)
Abbreviation undeliveredRun e :=
  (storeEvents (platform := samplePlatform) (failingApp e) healthyRegistry
     [1; 2]%positive sampleConfig sampleWorld).

(** Two envelopes of which the second exhausts its attempts. *)
Abbreviation exhaustedRun :=
  (storeEvents (platform := samplePlatform) healthyApp onlySecondCallSucceeds
     [1; 2]%positive sampleConfig sampleWorld).

(** ** The rest of the adapter *)

(** [rawEvents.map((event) => event as EventEnvelope)]: the cast is a
    matter of types only, every element is handed on as it is. *)
Definition rawEventsToEnvelopes {A} (rawEvents : list A) : list A :=
  map (fun event => event) rawEvents.

(** The references handed to [eventRegistry.store], in order. *)
Definition stored_ref_of (e : Event) : option loc :=
  match e with
  | EvStore record _ _ => Some record
  | _ => None
  end.

Definition store_refs (tr : list Event) : list loc := omap stored_ref_of tr.

(** The queries of a history, in order. *)
Definition query_of (e : Event) : option Query :=
  match e with
  | EvQuery q => Some q
  | EvQueryLatestSnapshot q => Some q
  | _ => None
  end.

Definition queries (tr : list Event) : list Query := omap query_of tr.

(** Nothing is allocated and the clock is not read. *)
Definition no_alloc_no_clock (w w' : World) : Prop :=
  heap w' = heap w ∧ n_now w' = n_now w.

(** [record] is the envelope content [o] with [persistedAt] set: every other
    property is the one of [o], nested references included. *)
Definition stamped_copy_of (o record : Obj) : Prop :=
  (∃ t, record !! "persistedAt" = Some (VStr t))
  ∧ forall name, name ≠ "persistedAt" -> record !! name = o !! name.

(** What [storeSnapshot] may add to the history for the envelope at [l]
    with content [o]: debug lines, pauses of the retry policy, and store
    calls that hand over [l] itself with content [o]. *)
Definition snapshot_event (l : loc) (o : Obj) (e : Event) : Prop :=
  match e with
  | EvLog _ _ => True
  | EvBackoff => True
  | EvStore record content _ => record = l ∧ content = o
  | _ => False
  end.

(** The records handed to the registry live where nothing lived when the
    call began. *)
Definition fresh_records (w w' : World) : Prop :=
  ∃ new, trace w' = trace w ++ new
         ∧ heap w ⊆ heap w'
         ∧ Forall (fun record => heap w !! record = None) (store_refs new).

(** The queries the two read operations ask. *)
Definition eventsQuery (entityTypeName entityID : string)
    (since : option string) : Query :=
  {| q_entityID := entityID;
     q_entityTypeName := entityTypeName;
     q_kind := "event";
     q_createdAt_gt :=
       Some (match since with
             | None => "1970-01-01T00:00:00.000Z"
             | Some "" => "1970-01-01T00:00:00.000Z"
             | Some s => s
             end) |}.

Definition snapshotQuery (entityTypeName entityID : string) : Query :=
  {| q_entityID := entityID;
     q_entityTypeName := entityTypeName;
     q_kind := "snapshot";
     q_createdAt_gt := None |}.

(** * Properties *)

(** ** Histories *)

Lemma history_app (w w' : World) (new : list Event) :
  trace w' = trace w ++ new -> history w w' = new.
Proof.
  intros Htr. unfold history. rewrite Htr. apply drop_app_length.
Qed.

Lemma timeline_app (a b : list Event) :
  timeline (a ++ b) = timeline a ++ timeline b.
Proof. apply omap_app. Qed.

Lemma store_attempts_app (a b : list Event) :
  store_attempts (a ++ b) = store_attempts a ++ store_attempts b.
Proof. apply omap_app. Qed.

Lemma stored_records_app (a b : list Event) :
  stored_records (a ++ b) = stored_records a ++ stored_records b.
Proof.
  unfold stored_records. rewrite store_attempts_app. apply omap_app.
Qed.

Lemma dispatch_calls_app (a b : list Event) :
  dispatch_calls (a ++ b) = dispatch_calls a ++ dispatch_calls b.
Proof. apply omap_app. Qed.

Lemma settle_ok (outcome : option JsError) :
  settle outcome = Ok tt <-> outcome = None.
Proof. destruct outcome; simpl; split; congruence. Qed.

Lemma deref_mono (w w' : World) (l : loc) :
  heap w ⊆ heap w' -> live w l -> deref w' l = deref w l.
Proof.
  intros Hsub [o Ho]%elem_of_dom. unfold deref.
  rewrite Ho. by rewrite (lookup_weaken _ _ _ _ Ho Hsub).
Qed.

Lemma live_mono (w w' : World) (l : loc) :
  heap w ⊆ heap w' -> live w l -> live w' l.
Proof.
  intros Hsub [o Ho]%elem_of_dom. apply elem_of_dom.
  exists o. by apply (lookup_weaken _ _ _ _ Ho Hsub).
Qed.

(** ** What the store phase can do to the world *)

Section Steps.

Context {platform : Platform} (eventRegistry : EventRegistry).

Lemma steps_refl (w : World) : steps eventRegistry w w [].
Proof.
  split; simpl; rewrite ?app_nil_r; auto with lia.
Qed.

Lemma steps_trans (w1 w2 w3 : World) (a b : list Event) :
  steps eventRegistry w1 w2 a -> steps eventRegistry w2 w3 b ->
  steps eventRegistry w1 w3 (a ++ b).
Proof.
  intros [] [].
  split.
  - rewrite steps_trace1, steps_trace0. by rewrite app_assoc.
  - by etrans.
  - congruence.
  - congruence.
  - rewrite dispatch_calls_app, steps_no_dispatch0, steps_no_dispatch1. done.
  - rewrite store_attempts_app, length_app. lia.
  - rewrite stored_records_app, steps_db1, steps_db0. by rewrite app_assoc.
  - rewrite store_attempts_app, map_app, length_app, seq_app, map_app.
    f_equal; [exact steps_script0 |].
    etrans; [exact steps_script1 |].
    rewrite steps_store0. simpl.
    replace (seq (length (store_attempts a)) (length (store_attempts b)))
      with (Nat.add (length (store_attempts a))
              <$> seq 0 (length (store_attempts b)))
      by (rewrite fmap_add_seq; f_equal; lia).
    rewrite <- list_fmap_compose. apply list_fmap_ext.
    intros _ i _. simpl. f_equal. lia.
Qed.

Lemma steps_log (w : World) (logger : Logger) (message : string) :
  steps eventRegistry w (snd (logger_debug logger message w))
        [EvLog logger message].
Proof. split; simpl; rewrite ?app_nil_r; auto with lia. Qed.

Lemma steps_backoff (w : World) :
  steps eventRegistry w (snd (backoff w)) [EvBackoff].
Proof. split; simpl; rewrite ?app_nil_r; auto with lia. Qed.

Lemma steps_store_call (w : World) (l : loc) :
  steps eventRegistry w (snd (EventRegistry.store eventRegistry l w))
        [EvStore l (deref w l) (store_outcome eventRegistry (n_store w))].
Proof.
  split; simpl; auto with lia.
  - unfold stored_records. simpl.
    destruct (store_outcome eventRegistry (n_store w)); simpl;
      by rewrite ?app_nil_r.
  - by rewrite Nat.add_0_r.
Qed.

(** One call of [persistEvent], spelled out. *)
Lemma persistEvent_run (w : World) (l : loc) :
  let t := clock (n_now w) in
  let o := persisted (deref w l) t in
  let l' := fresh (dom (heap w)) in
  let outcome := store_outcome eventRegistry (n_store w) in
  persistEvent eventRegistry l w
  = (settle outcome,
     mkWorld (<[l' := o]> (heap w))
             (match outcome with None => db w ++ [o] | Some _ => db w end)
             (trace w ++ [EvNow t; EvStore l' o outcome])
             (S (n_now w)) (S (n_store w)) (n_query w) (n_dispatch w)).
Proof.
  intros t o l' outcome.
  unfold persistEvent, bind, spread, newDateISOString, newObject,
    EventRegistry.store, set_heap, deref. simpl.
  rewrite lookup_insert_eq. simpl.
  rewrite <- app_assoc. reflexivity.
Qed.

Lemma fresh_not_live (w : World) : heap w !! fresh (dom (heap w)) = None.
Proof. apply not_elem_of_dom, is_fresh. Qed.

Lemma steps_persistEvent (w : World) (l : loc) :
  steps eventRegistry w (snd (persistEvent eventRegistry l w))
        [EvNow (clock (n_now w));
         EvStore (fresh (dom (heap w)))
                 (persisted (deref w l) (clock (n_now w)))
                 (store_outcome eventRegistry (n_store w))].
Proof.
  rewrite persistEvent_run. split; simpl; auto with lia.
  - apply insert_subseteq, fresh_not_live.
  - unfold stored_records. simpl.
    destruct (store_outcome eventRegistry (n_store w)); simpl;
      by rewrite ?app_nil_r.
  - by rewrite Nat.add_0_r.
Qed.

End Steps.

(** ** The retry policy around one store *)

Section Retry.

Context {platform : Platform} (eventRegistry : EventRegistry).

(** The guarded operation [op], looked at from worlds that satisfy [Inv]:
    it makes one store attempt, settles as the script says, and hands
    over a record that satisfies [Rec]. *)
Variable op : M unit.
Variable Inv : World -> Prop.
Variable Rec : Obj -> Prop.

Hypothesis Inv_steps :
  forall w w' new, steps eventRegistry w w' new -> Inv w -> Inv w'.

Hypothesis op_attempt :
  forall w, Inv w ->
    fst (op w) = settle (store_outcome eventRegistry (n_store w))
    ∧ ∃ new o,
        steps eventRegistry w (snd (op w)) new
        ∧ Rec o
        ∧ store_attempts new
          = [(o, store_outcome eventRegistry (n_store w))].

Lemma retryLoop_unfold {A} (n : nat) (m : M A) (c : ErrorClass) (w : World) :
  retryLoop n m c w
  = match m w with
    | (Ok a, w') => (Ok a, w')
    | (Throw e, w') =>
        if decide (error_class e = c) then
          match n with
          | O => (Throw e, w')
          | S n' => retryLoop n' m c (log_event EvBackoff w')
          end
        else (Throw e, w')
    end.
Proof.
  destruct n; simpl; destruct (m w) as [[a|e] w']; try reflexivity;
    destruct (decide _); reflexivity.
Qed.

Lemma retryLoop_run (n : nat) (w : World) :
  Inv w ->
  ∃ new,
    steps eventRegistry w
          (snd (retryLoop n op OptimisticConcurrencyUnexpectedVersionError w))
          new
    ∧ retry_shape n (map snd (store_attempts new))
        (fst (retryLoop n op OptimisticConcurrencyUnexpectedVersionError w))
    ∧ Forall (fun a => Rec (fst a)) (store_attempts new).
Proof.
  revert w. induction n as [|n IH]; intros w HI;
    destruct (op_attempt w HI) as (Hres & new & o & Hst & Hrec & Hatt);
    rewrite retryLoop_unfold;
    destruct (op w) as [[[]|e] w1] eqn:Hop; simpl in Hres, Hst;
    destruct (store_outcome eventRegistry (n_store w)) as [e'|] eqn:Hout;
    simplify_eq/=.
  - exists new. rewrite Hatt.
    split_and!; [done | constructor | by repeat constructor].
  - destruct (decide _) as [Hc|Hc]; exists new; rewrite Hatt; simpl;
      (split_and!; [done | by constructor | by repeat constructor]).
  - exists new. rewrite Hatt.
    split_and!; [done | constructor | by repeat constructor].
  - destruct (decide _) as [Hc|Hc].
    + pose proof (steps_trans _ _ _ _ _ _ Hst (steps_backoff _ w1)) as Hst1.
      simpl in Hst1.
      destruct (IH (log_event EvBackoff w1)) as (new' & Hst' & Hsh & Hall).
      { eapply Inv_steps; [exact Hst1 | exact HI]. }
      exists ((new ++ [EvBackoff]) ++ new').
      split; [eapply steps_trans; [exact Hst1 | exact Hst'] |].
      rewrite !store_attempts_app, Hatt. simpl.
      split; [by constructor | by constructor].
    + exists new. rewrite Hatt. simpl.
      split_and!; [done | by constructor | by repeat constructor].
Qed.

End Retry.

(** ** The store phase of [storeEvents] and [storeSnapshot] *)

Section StorePhase.

Context {platform : Platform} (eventRegistry : EventRegistry).

(** The guarded store of one envelope. *)
Lemma guarded_persist_run (w : World) (l : loc) :
  live w l ->
  ∃ new,
    steps eventRegistry w (snd (guardedPersist eventRegistry l w)) new
    ∧ retry_block (deref w l) (maxAttempts - 1) (store_attempts new)
        (fst (guardedPersist eventRegistry l w)).
Proof.
  intros Hl. unfold retryIfError, retry_block.
  destruct (retryLoop_run eventRegistry (persistEvent eventRegistry l)
              (fun w' => heap w ⊆ heap w')
              (fun o => ∃ t, o = persisted (deref w l) t))
    with (n := maxAttempts - 1) (w := w) as (new & Hst & Hsh & Hall).
  - intros w1 w2 new Hst Hsub. etrans; [exact Hsub | apply Hst].
  - intros w1 Hsub. split; [by rewrite persistEvent_run |].
    eexists _, (persisted (deref w1 l) (clock (n_now w1))).
    split; [apply steps_persistEvent | split; [| reflexivity]].
    eexists. rewrite (deref_mono w w1 l Hsub Hl). reflexivity.
  - done.
  - exists new. done.
Qed.

(** The guarded store of a snapshot: the envelope itself is handed over. *)
Lemma guarded_store_run (w : World) (l : loc) :
  live w l ->
  ∃ new,
    steps eventRegistry w
      (snd (retryIfError (EventRegistry.store eventRegistry l)
              OptimisticConcurrencyUnexpectedVersionError w)) new
    ∧ retry_shape (maxAttempts - 1) (map snd (store_attempts new))
        (fst (retryIfError (EventRegistry.store eventRegistry l)
                OptimisticConcurrencyUnexpectedVersionError w))
    ∧ Forall (fun a => fst a = deref w l) (store_attempts new).
Proof.
  intros Hl. unfold retryIfError.
  apply (retryLoop_run eventRegistry (EventRegistry.store eventRegistry l)
           (fun w' => heap w ⊆ heap w')
           (fun o => o = deref w l)).
  - intros w1 w2 new Hst Hsub. etrans; [exact Hsub | apply Hst].
  - intros w1 Hsub. split; [done |].
    eexists _, (deref w1 l).
    split; [apply steps_store_call | split; [| reflexivity]].
    apply (deref_mono w w1 l Hsub Hl).
  - done.
Qed.

Lemma store_phase_run (batch : list loc) (w : World) :
  Forall (live w) batch ->
  ∃ new,
    steps eventRegistry w
          (snd (forOf batch (guardedPersist eventRegistry) w)) new
    ∧ sequential (maxAttempts - 1) (map (deref w) batch)
        (store_attempts new)
        (fst (forOf batch (guardedPersist eventRegistry) w)).
Proof.
  revert w. induction batch as [|l rest IH]; intros w Hlive.
  - exists []. split; [apply steps_refl | constructor].
  - apply Forall_cons in Hlive as [Hl Hrest].
    destruct (guarded_persist_run w l Hl) as (new1 & Hst1 & Hblock).
    simpl. unfold bind.
    change (retryIfError _ _) with (guardedPersist eventRegistry l) in *.
    destruct (guardedPersist eventRegistry l w) as [[[]|e] w1] eqn:Hrun;
      simpl in Hst1, Hblock.
    + pose proof (steps_heap _ _ _ _ Hst1) as Hsub1.
      destruct (IH w1) as (new2 & Hst2 & Hseq).
      { eapply Forall_impl; [exact Hrest |].
        intros l' Hl'. eapply live_mono; [exact Hsub1 | exact Hl']. }
      exists (new1 ++ new2).
      split; [eapply steps_trans; eassumption |].
      rewrite store_attempts_app. simpl.
      apply seq_next; [exact Hblock |].
      replace (map (deref w) rest) with (map (deref w1) rest); [exact Hseq |].
      apply Forall_fmap_ext_1. eapply Forall_impl; [exact Hrest |].
      intros l' Hl'. simpl. apply deref_mono; [exact Hsub1 | exact Hl'].
    + exists new1. split; [exact Hst1 |]. simpl.
      by apply seq_stop.
Qed.

(** [storeEvents] as a whole: the store phase, then either the error of
    the store phase or one call of the dispatcher. *)
Lemma storeEvents_run (userApp : UserApp) (batch : list loc)
    (config : BoosterConfig) (w : World) :
  Forall (live w) batch ->
  ∃ w_mid new r_store,
    steps eventRegistry w w_mid new
    ∧ sequential (maxAttempts - 1) (map (deref w) batch)
        (store_attempts new) r_store
    ∧ match r_store with
      | Ok _ =>
          storeEvents userApp eventRegistry batch config w
          = (settle (dispatch_outcome userApp (n_dispatch w)),
             mkWorld (heap w_mid) (db w_mid)
               (trace w ++ new
                  ++ [EvDispatch batch (map (deref w) batch)
                        (dispatch_outcome userApp (n_dispatch w))])
               (n_now w_mid) (n_store w_mid) (n_query w)
               (S (n_dispatch w)))
      | Throw e =>
          storeEvents userApp eventRegistry batch config w = (Throw e, w_mid)
      end.
Proof.
  intros Hlive.
  set (logger := getLogger config "events-adapter#storeEvents").
  pose proof (steps_log eventRegistry w logger
                "Storing the following event envelopes:") as Hlog1.
  simpl in Hlog1. set (w0 := log_event _ w) in Hlog1.
  destruct (store_phase_run batch w0) as (new & Hst & Hseq).
  { eapply Forall_impl; [exact Hlive |].
    intros l Hl.
    eapply live_mono; [apply (steps_heap _ _ _ _ Hlog1) | exact Hl]. }
  replace (map (deref w0) batch) with (map (deref w) batch) in Hseq
    by reflexivity.
  unfold storeEvents, bind. simpl. fold logger. fold w0.
  change (fun l => retryIfError _ _) with (guardedPersist eventRegistry).
  destruct (forOf batch (guardedPersist eventRegistry) w0)
    as [[[]|e] w1] eqn:Hrun;
    simpl in Hst, Hseq.
  - pose proof (steps_trans _ _ _ _ _ _
                  (steps_trans _ _ _ _ _ _ Hlog1 Hst)
                  (steps_log eventRegistry w1 logger
                     "EventEnvelopes stored")) as Hall.
    simpl in Hall. eexists _, _, (Ok tt). split; [exact Hall |].
    split.
    + replace (store_attempts (_ :: new ++ [_])) with (store_attempts new);
        [exact Hseq |].
      unfold store_attempts. simpl. rewrite omap_app. simpl.
      by rewrite app_nil_r.
    + destruct Hall as [Htr Hheap Hq Hd _ _ _ _].
      unfold boosterEventDispatcher.
      rewrite Htr, Hd, Hq, <- app_assoc.
      replace (map (deref (log_event _ w1)) batch) with (map (deref w) batch);
        [reflexivity |].
      apply Forall_fmap_ext_1.
      eapply Forall_impl; [exact Hlive |]. intros l Hl. simpl.
      symmetry. by apply deref_mono.
  - eexists _, _, (Throw e). split; [eapply steps_trans; eassumption |].
    split; [exact Hseq | reflexivity].
Qed.

End StorePhase.

(** ** Reading blocks of attempts *)

Lemma retry_shape_ok_stored (n : nat) (outs : list (option JsError))
    (r : Result unit) :
  retry_shape n outs r ->
  forall block : list Attempt,
    map snd block = outs -> r = Ok tt ->
    ∃ o, o ∈ map fst block ∧ omap stored_of block = [o].
Proof.
  induction 1 as [n|n e Hc|e Hc|n e rest r Hc Hsh IH];
    intros block Hmap Hr; try discriminate.
  - destruct block as [|[o out] [|]]; simplify_eq/=.
    exists o. split; [apply list_elem_of_here | done].
  - destruct block as [|[o out] block]; simplify_eq/=.
    destruct (IH block eq_refl eq_refl) as (o' & Hin & Hst).
    exists o'. split; [by apply list_elem_of_further | done].
Qed.

Lemma retry_block_ok_stored (o : Obj) (n : nat) (block : list Attempt) :
  retry_block o n block (Ok tt) ->
  ∃ t, omap stored_of block = [persisted o t].
Proof.
  intros [Hsh Hall].
  destruct (retry_shape_ok_stored _ _ _ Hsh block eq_refl eq_refl)
    as (o' & Hin & Hst).
  apply list_elem_of_fmap in Hin as (a & -> & Hin).
  rewrite Forall_forall in Hall. destruct (Hall a Hin) as [t Ht].
  exists t. by rewrite Hst, Ht.
Qed.

Lemma sequential_ok_stored (n : nat) (objs : list Obj)
    (attempts : list Attempt) (r : Result unit) :
  sequential n objs attempts r ->
  r = Ok tt ->
  ∃ ts, length ts = length objs
        ∧ omap stored_of attempts = zip_with persisted objs ts.
Proof.
  induction 1 as [|o os block rest r Hb Hseq IH|o os block e Hb];
    intros Hr; try discriminate.
  - by exists [].
  - destruct (IH Hr) as (ts & Hlen & Hst).
    destruct (retry_block_ok_stored _ _ _ Hb) as [t Ht].
    exists (t :: ts). split; [simpl; lia |].
    rewrite omap_app, Ht, Hst. done.
Qed.

Section BatchOrder.

Context {platform : Platform}.

(** C1.  A batch is persisted strictly in sequence and in input order.
    For a batch of live envelopes, the store attempts [storeEvents]
    makes are one block of attempts per envelope, in the order of the
    batch; each block is what the retry policy for the conflict class
    produces with [maxAttempts - 1] retries (every attempt but the last
    failed with the conflict class) on the envelope with [persistedAt]
    set; the block of an envelope starts only after the block before it
    ended in success, and no attempt follows a block that failed.  The
    dispatcher is reached exactly when the store phase succeeded, and an
    error of the store phase is the error of [storeEvents]. *)
Theorem storeEvents_sequential_in_input_order
    (userApp : UserApp) (eventRegistry : EventRegistry)
    (eventEnvelopes : list loc) (config : BoosterConfig) (w : World) :
  Forall (live w) eventEnvelopes ->
  let run := storeEvents userApp eventRegistry eventEnvelopes config w in
  ∃ r_store,
    sequential (maxAttempts - 1) (map (deref w) eventEnvelopes)
      (store_attempts (history w (snd run))) r_store
    ∧ (forall e, r_store = Throw e -> fst run = Throw e)
    ∧ (r_store = Ok tt <-> dispatch_calls (history w (snd run)) ≠ []).
Proof.
  intros Hlive run. subst run.
  destruct (storeEvents_run eventRegistry userApp eventEnvelopes config w
              Hlive) as (w_mid & new & r_store & Hst & Hseq & Hrun).
  exists r_store. destruct r_store as [[]|e]; rewrite Hrun; simpl.
  - rewrite (history_app w _ (new ++ [EvDispatch eventEnvelopes
               (map (deref w) eventEnvelopes)
               (dispatch_outcome userApp (n_dispatch w))])) by done.
    rewrite store_attempts_app, dispatch_calls_app. simpl.
    rewrite app_nil_r. split_and!; [done | done |].
    split; [| done]. intros _. by destruct (dispatch_calls new).
  - rewrite (history_app w _ new) by apply Hst.
    split_and!; [done | by intros ? [= ->] |].
    rewrite (steps_no_dispatch _ _ _ _ Hst). split; done.
Qed.

(** C2.  Dispatch after success.  When [storeEvents] succeeds on a batch
    of live envelopes, what it added to the history ends with the one
    call of the dispatcher and holds no other; before that call every
    envelope of the batch was stored, in order, as the envelope with
    [persistedAt] set, and the registry holds these records after what
    it held before.  The dispatcher is handed the array of the caller,
    and behind its references it finds the contents the envelopes had
    before the call: nothing has been added to them. *)
Theorem storeEvents_dispatches_once_after_success
    (userApp : UserApp) (eventRegistry : EventRegistry)
    (eventEnvelopes : list loc) (config : BoosterConfig) (w : World) :
  Forall (live w) eventEnvelopes ->
  let run := storeEvents userApp eventRegistry eventEnvelopes config w in
  fst run = Ok tt ->
  ∃ ts before,
    length ts = length eventEnvelopes
    ∧ history w (snd run)
      = before ++ [EvDispatch eventEnvelopes
                     (map (deref w) eventEnvelopes) None]
    ∧ dispatch_calls before = []
    ∧ stored_records before
      = zip_with persisted (map (deref w) eventEnvelopes) ts
    ∧ db (snd run)
      = db w ++ zip_with persisted (map (deref w) eventEnvelopes) ts
    ∧ n_dispatch (snd run) = S (n_dispatch w).
Proof.
  intros Hlive run. subst run.
  destruct (storeEvents_run eventRegistry userApp eventEnvelopes config w
              Hlive) as (w_mid & new & r_store & Hst & Hseq & Hrun).
  destruct r_store as [[]|e]; rewrite Hrun; simpl; [| discriminate].
  intros Hok%settle_ok. rewrite Hok.
  destruct (sequential_ok_stored _ _ _ _ Hseq eq_refl) as (ts & Hlen & Hsto).
  rewrite length_map in Hlen.
  exists ts, new. split_and!; try done.
  - by apply history_app.
  - apply Hst.
  - rewrite (steps_db _ _ _ _ Hst). by rewrite <- Hsto.
Qed.

End BatchOrder.

(** ** Relations the whole adapter preserves *)

Section Closure.

Context {platform : Platform}.

(** A relation between the world before and the world after that holds
    along every primitive step holds along the loops built from them. *)
Variable R : World -> World -> Prop.
Context {R_pre : PreOrder R}.

Lemma bind_closed {A B} (m : M A) (k : A -> M B) :
  (forall w, R w (snd (m w))) ->
  (forall a w, R w (snd (k a w))) ->
  forall w, R w (snd (bind m k w)).
Proof.
  intros Hm Hk w. unfold bind. specialize (Hm w).
  destruct (m w) as [[a|e] w1]; simpl in *; [| done].
  etrans; [exact Hm | apply Hk].
Qed.

Lemma retryLoop_closed {A} (m : M A) (c : ErrorClass) :
  (forall w, R w (snd (m w))) ->
  (forall w, R w (log_event EvBackoff w)) ->
  forall n w, R w (snd (retryLoop n m c w)).
Proof.
  intros Hm Hb n. induction n as [|n IH]; intros w;
    rewrite retryLoop_unfold; specialize (Hm w);
    destruct (m w) as [[a|e] w1]; simpl in *; try done;
    destruct (decide _); simpl; try done.
  etrans; [exact Hm |]. etrans; [apply Hb | apply IH].
Qed.

Lemma forOf_closed {A} (body : A -> M unit) :
  (forall x w, R w (snd (body x w))) ->
  forall xs w, R w (snd (forOf xs body w)).
Proof.
  intros Hbody xs. induction xs as [|x xs IH]; intros w; simpl.
  - reflexivity.
  - apply bind_closed; [apply Hbody | intros _; apply IH].
Qed.

Hypothesis R_log :
  forall logger message w, R w (log_event (EvLog logger message) w).
Hypothesis R_backoff : forall w, R w (log_event EvBackoff w).
Hypothesis R_persist :
  forall eventRegistry l w, R w (snd (persistEvent eventRegistry l w)).
Hypothesis R_store :
  forall eventRegistry l w, R w (snd (EventRegistry.store eventRegistry l w)).
Hypothesis R_dispatch :
  forall userApp batch w, R w (snd (boosterEventDispatcher userApp batch w)).

Lemma storeEvents_closed (userApp : UserApp) (eventRegistry : EventRegistry)
    (eventEnvelopes : list loc) (config : BoosterConfig) (w : World) :
  R w (snd (storeEvents userApp eventRegistry eventEnvelopes config w)).
Proof.
  unfold storeEvents.
  apply bind_closed; [intros; apply R_log | intros _].
  apply bind_closed; [| intros _].
  - apply forOf_closed. intros l w1. unfold retryIfError.
    apply retryLoop_closed; [apply R_persist | apply R_backoff].
  - apply bind_closed; [intros; apply R_log | intros _; apply R_dispatch].
Qed.

Lemma storeSnapshot_closed (eventRegistry : EventRegistry)
    (snapshotEnvelope : loc) (config : BoosterConfig) (w : World) :
  R w (snd (storeSnapshot eventRegistry snapshotEnvelope config w)).
Proof.
  unfold storeSnapshot.
  apply bind_closed; [intros; apply R_log | intros _].
  apply bind_closed; [| intros; apply R_log].
  unfold retryIfError.
  apply retryLoop_closed; [apply R_store | apply R_backoff].
Qed.

End Closure.

#[local] Instance heap_kept_pre : PreOrder heap_kept.
Proof.
  split; [intros w; unfold heap_kept; done |].
  intros w1 w2 w3 H1 H2. unfold heap_kept in *. by etrans.
Qed.

Lemma stamped_app `{Platform} (i j k : nat) (a b : list (string + Attempt)) :
  stamped i a j -> stamped j b k -> stamped i (a ++ b) k.
Proof.
  induction 1 as [i|i o out rest j Ho Hrest IH]; intros Hb; simpl.
  - done.
  - constructor; [done | by apply IH].
Qed.

#[local] Instance ticks_pre `{Platform} : PreOrder ticks.
Proof.
  split.
  - intros w. exists []. split; [by rewrite app_nil_r | constructor].
  - intros w1 w2 w3 (a & Ha & Hsa) (b & Hb & Hsb). exists (a ++ b). split.
    + by rewrite Hb, Ha, app_assoc.
    + rewrite timeline_app. by eapply stamped_app.
Qed.

Lemma store_attempts_timeline (tr : list Event) :
  store_attempts tr
  = omap (fun x => match x with inr a => Some a | inl _ => None end)
         (timeline tr).
Proof.
  induction tr as [|e tr IH]; [done |].
  destruct e; simpl; by rewrite ?IH.
Qed.

Lemma stamped_length `{Platform} (i j : nat) (tl : list (string + Attempt)) :
  stamped i tl j ->
  j = i + length
            (omap (fun x => match x with inr a => Some a | inl _ => None end)
                  tl).
Proof.
  induction 1 as [i|i o out rest j Ho Hrest IH]; simpl; [lia |].
  rewrite IH. unfold omap. lia.
Qed.

Section Frame.

Context {platform : Platform}.

Lemma ticks_silent (w w' : World) (new : list Event) :
  trace w' = trace w ++ new -> timeline new = [] -> n_now w' = n_now w ->
  ticks w w'.
Proof.
  intros Htr Htl Hn. exists new. split; [done |].
  rewrite Htl, Hn. constructor.
Qed.

(** C5.  [persistedAt] is read from the clock right before every store
    call, attempt by attempt.  Among the clock readings and store
    attempts that [storeEvents] adds to the history, every store attempt
    comes directly after a clock reading and hands the registry a record
    whose [persistedAt] is that reading; the readings are consecutive
    readings of the clock, one per attempt, so a retry carries the
    reading made for it and not the one of the failed attempt before. *)
Theorem storeEvents_stamps_every_attempt
    (userApp : UserApp) (eventRegistry : EventRegistry)
    (eventEnvelopes : list loc) (config : BoosterConfig) (w : World) :
  let w' := snd (storeEvents userApp eventRegistry eventEnvelopes config w) in
  stamped (n_now w) (timeline (history w w')) (n_now w')
  ∧ n_now w' = n_now w + length (store_attempts (history w w')).
Proof.
  intros w'. subst w'.
  assert (Hticks : ticks w
    (snd (storeEvents userApp eventRegistry eventEnvelopes config w))).
  { apply (storeEvents_closed ticks).
    - intros logger message w1.
      by apply (ticks_silent _ _ [EvLog logger message]).
    - intros w1. by apply (ticks_silent _ _ [EvBackoff]).
    - intros reg l w1. rewrite persistEvent_run. simpl.
      eexists. split; [reflexivity |]. simpl.
      constructor; [apply lookup_insert_eq | constructor].
    - intros app batch w1. unfold boosterEventDispatcher. simpl.
      by eapply ticks_silent. }
  destruct Hticks as (new & Htr & Hst).
  rewrite (history_app _ _ _ Htr). split; [exact Hst |].
  rewrite store_attempts_timeline. by apply stamped_length.
Qed.

Lemma storeEvents_heap_kept (userApp : UserApp)
    (eventRegistry : EventRegistry) (eventEnvelopes : list loc)
    (config : BoosterConfig) (w : World) :
  heap w ⊆ heap (snd (storeEvents userApp eventRegistry eventEnvelopes
                        config w)).
Proof.
  apply (storeEvents_closed heap_kept); unfold heap_kept.
  - done.
  - done.
  - intros reg l w1. rewrite persistEvent_run. simpl.
    apply insert_subseteq, fresh_not_live.
  - done.
Qed.

Lemma storeSnapshot_heap_kept (eventRegistry : EventRegistry)
    (snapshotEnvelope : loc) (config : BoosterConfig) (w : World) :
  heap w ⊆ heap (snd (storeSnapshot eventRegistry snapshotEnvelope
                        config w)).
Proof. apply (storeSnapshot_closed heap_kept); unfold heap_kept; done. Qed.

Lemma readEntityEventsSince_heap (eventRegistry : EventRegistry)
    (config : BoosterConfig) (entityTypeName entityID : string)
    (since : option string) (w : World) :
  heap (snd (readEntityEventsSince eventRegistry config entityTypeName
               entityID since w)) = heap w.
Proof.
  unfold readEntityEventsSince, bind, EventRegistry.query. simpl.
  by destruct (query_outcome eventRegistry (n_query w)).
Qed.

Lemma readEntityLatestSnapshot_heap (eventRegistry : EventRegistry)
    (config : BoosterConfig) (entityTypeName entityID : string)
    (w : World) :
  heap (snd (readEntityLatestSnapshot eventRegistry config entityTypeName
               entityID w)) = heap w.
Proof.
  unfold readEntityLatestSnapshot, bind, EventRegistry.queryLatestSnapshot.
  simpl. destruct (query_outcome eventRegistry (n_query w)); [done |].
  by destruct (last _).
Qed.

(** C9.  No operation changes an envelope it was given.  An object that
    is alive before a call of [storeEvents], [storeSnapshot],
    [readEntityEventsSince] or [readEntityLatestSnapshot] is alive after
    it with the same properties; so an envelope of the batch that had no
    [persistedAt] has none afterwards.  [persistEvent] hands the registry
    a new object, at a reference that held nothing before: the properties
    of the envelope with [persistedAt] set from the clock. *)
Theorem adapter_leaves_envelopes_unchanged
    (userApp : UserApp) (eventRegistry : EventRegistry)
    (eventEnvelopes : list loc) (snapshotEnvelope : loc)
    (config : BoosterConfig) (entityTypeName entityID : string)
    (since : option string) (w : World) (l : loc) (o : Obj) :
  heap w !! l = Some o ->
  heap (snd (storeEvents userApp eventRegistry eventEnvelopes config w)) !! l
    = Some o
  ∧ heap (snd (storeSnapshot eventRegistry snapshotEnvelope config w)) !! l
    = Some o
  ∧ heap (snd (readEntityEventsSince eventRegistry config entityTypeName
                 entityID since w)) !! l = Some o
  ∧ heap (snd (readEntityLatestSnapshot eventRegistry config entityTypeName
                 entityID w)) !! l = Some o
  ∧ (let fresh_ref := fresh (dom (heap w)) in
     let record := persisted o (clock (n_now w)) in
     let w' := snd (persistEvent eventRegistry l w) in
     fresh_ref ≠ l
     ∧ heap w !! fresh_ref = None
     ∧ heap w' = <[fresh_ref := record]> (heap w)
     ∧ heap w' !! l = Some o
     ∧ history w w'
       = [EvNow (clock (n_now w));
          EvStore fresh_ref record
                  (store_outcome eventRegistry (n_store w))]).
Proof.
  intros Hl. split_and!.
  - eapply lookup_weaken; [exact Hl | apply storeEvents_heap_kept].
  - eapply lookup_weaken; [exact Hl | apply storeSnapshot_heap_kept].
  - by rewrite readEntityEventsSince_heap.
  - by rewrite readEntityLatestSnapshot_heap.
  - intros fresh_ref record w'. subst fresh_ref record w'.
    rewrite persistEvent_run. simpl.
    assert (Hne : fresh (dom (heap w)) ≠ l).
    { intros Heq. pose proof (fresh_not_live w) as Hf.
      rewrite Heq in Hf. congruence. }
    unfold deref. rewrite Hl. simpl. split_and!.
    + exact Hne.
    + apply fresh_not_live.
    + reflexivity.
    + by rewrite lookup_insert_ne.
    + by apply history_app.
Qed.

(** C10.  The empty batch.  [storeEvents] on the empty batch makes no
    store call and leaves the registry as it was, calls the dispatcher
    once, with the empty array, and settles as that call does: it
    succeeds exactly when the dispatcher does. *)
Theorem storeEvents_empty_batch
    (userApp : UserApp) (eventRegistry : EventRegistry)
    (config : BoosterConfig) (w : World) :
  let run := storeEvents userApp eventRegistry [] config w in
  let outcome := dispatch_outcome userApp (n_dispatch w) in
  store_attempts (history w (snd run)) = []
  ∧ n_store (snd run) = n_store w
  ∧ db (snd run) = db w
  ∧ dispatch_calls (history w (snd run)) = [([], [], outcome)]
  ∧ n_dispatch (snd run) = S (n_dispatch w)
  ∧ fst run = settle outcome
  ∧ (fst run = Ok tt <-> outcome = None).
Proof.
  intros run outcome. subst run outcome.
  unfold storeEvents, bind, boosterEventDispatcher. simpl.
  rewrite <- !app_assoc. simpl.
  erewrite history_app by reflexivity. simpl.
  split_and!; try done. apply settle_ok.
Qed.

End Frame.

(** ** Blocks of attempts against a store script *)

Section Scripts.

(** The outcome of the store call number [i]. *)
Variable script : nat -> option JsError.

Lemma follows_cons (s : nat) (out : option JsError)
    (outs : list (option JsError)) :
  follows script s (out :: outs) ->
  out = script s ∧ follows script (S s) outs.
Proof. unfold follows. simpl. intros [= -> Hrest]. done. Qed.

Lemma follows_app (s : nat) (a b : list (option JsError)) :
  follows script s (a ++ b) ->
  follows script s a ∧ follows script (s + length a) b.
Proof.
  revert s. induction a as [|x a IH]; intros s Hf; simpl in *.
  - split; [done | by rewrite Nat.add_0_r].
  - apply follows_cons in Hf as [-> Hf]. apply IH in Hf as [Ha Hb].
    split.
    + unfold follows in *. simpl. by f_equal.
    + by rewrite Nat.add_succ_r.
Qed.

Lemma shape_conflicts_then_ok (n : nat) (outs : list (option JsError))
    (r : Result unit) :
  retry_shape n outs r ->
  forall s k,
    follows script s outs ->
    (forall i, i < k -> ∃ e, script (s + i) = Some e ∧ conflict e) ->
    script (s + k) = None ->
    k <= n ->
    r = Ok tt ∧ length outs = S k.
Proof.
  induction 1 as [n|n e Hc|e Hc|n e rest r Hc Hsh IH];
    intros s k Hf Hfail Hok Hk;
    apply follows_cons in Hf as [Hhead Hf];
    (destruct k as [|k];
     [ rewrite Nat.add_0_r in Hok; try congruence
     | destruct (Hfail 0) as (e0 & He0 & Hc0); [lia |];
       rewrite Nat.add_0_r in He0; try congruence ]).
  - done.
  - lia.
  - destruct (IH (S s) k Hf) as [-> Hlen].
    + intros i Hi. destruct (Hfail (S i)) as (e1 & He1 & Hc1); [lia |].
      exists e1. by rewrite Nat.add_succ_comm.
    + by rewrite Nat.add_succ_comm.
    + lia.
    + simpl. by rewrite Hlen.
Qed.

Lemma shape_all_conflicts (n : nat) (outs : list (option JsError))
    (r : Result unit) :
  retry_shape n outs r ->
  forall s,
    follows script s outs ->
    (forall i, i <= n -> ∃ e, script (s + i) = Some e ∧ conflict e) ->
    length outs = S n ∧ r = settle (script (s + n))
    ∧ Forall (fun out => out ≠ None) outs.
Proof.
  induction 1 as [n|n e Hc|e Hc|n e rest r Hc Hsh IH];
    intros s Hf Hfail;
    apply follows_cons in Hf as [Hhead Hf];
    destruct (Hfail 0) as (e0 & He0 & Hc0); try lia;
    rewrite Nat.add_0_r in He0; try congruence.
  - rewrite Nat.add_0_r, <- Hhead. split_and!; [done | done |].
    by repeat constructor.
  - destruct (IH (S s) Hf) as (Hlen & Hr & Hall).
    + intros i Hi. destruct (Hfail (S i)) as (e1 & He1 & Hc1); [lia |].
      exists e1. by rewrite Nat.add_succ_comm.
    + split_and!.
      * simpl. by rewrite Hlen.
      * by rewrite Hr, Nat.add_succ_comm.
      * by constructor.
Qed.

Lemma shape_other_error (n : nat) (outs : list (option JsError))
    (r : Result unit) :
  retry_shape n outs r ->
  forall s e,
    follows script s outs ->
    script s = Some e -> ¬ conflict e ->
    outs = [Some e] ∧ r = Throw e.
Proof.
  induction 1 as [n|n e Hc|e Hc|n e rest r Hc Hsh IH];
    intros s e' Hf Hs Hnc;
    apply follows_cons in Hf as [Hhead Hf];
    rewrite Hs in Hhead; simplify_eq; done.
Qed.

Lemma failed_block_stores_nothing (block : list Attempt) :
  Forall (fun out => out ≠ None) (map snd block) ->
  omap stored_of block = [].
Proof.
  induction block as [|[o [e|]] block IH]; simpl; intros Hall;
    [done | | by inversion Hall].
  apply IH. by inversion Hall.
Qed.

Lemma sequential_conflicts_then_ok (n : nat) (objs : list Obj)
    (attempts : list Attempt) (r : Result unit) :
  sequential n objs attempts r ->
  forall s k,
    follows script s (map snd attempts) ->
    (forall i, i < k -> ∃ e, script (s + i) = Some e ∧ conflict e) ->
    (forall i, k <= i -> script (s + i) = None) ->
    k <= n ->
    r = Ok tt
    ∧ length attempts
      = match objs with [] => 0 | _ :: _ => k + length objs end.
Proof.
  induction 1 as [|o os block rest r [Hsh Hrec] Hseq IH
                  |o os block e [Hsh Hrec]];
    intros s k Hf Hfail Hlater Hk.
  - done.
  - rewrite map_app in Hf. apply follows_app in Hf as [Hf1 Hf2].
    destruct (shape_conflicts_then_ok _ _ _ Hsh s k Hf1 Hfail)
      as [_ Hlen1]; [by apply Hlater | done |].
    rewrite length_map in Hlen1, Hf2.
    destruct (IH (s + length block) 0 Hf2) as [-> Hlen2].
    + intros i Hi. lia.
    + intros i _. rewrite <- Nat.add_assoc. apply Hlater. lia.
    + lia.
    + split; [done |]. rewrite length_app, Hlen1, Hlen2.
      destruct os; simpl; lia.
  - destruct (shape_conflicts_then_ok _ _ _ Hsh s k Hf Hfail)
      as [Habs _]; [by apply Hlater | done | discriminate].
Qed.

Lemma sequential_first_exhausted (n : nat) (o : Obj) (os : list Obj)
    (attempts : list Attempt) (r : Result unit) :
  sequential n (o :: os) attempts r ->
  forall s,
    follows script s (map snd attempts) ->
    (forall i, i <= n -> ∃ e, script (s + i) = Some e ∧ conflict e) ->
    length attempts = S n
    ∧ r = settle (script (s + n))
    ∧ retry_block o n attempts r
    ∧ omap stored_of attempts = [].
Proof.
  intros Hseq s Hf Hfail.
  destruct (Hfail n) as (e & He & Hc); [lia |].
  inversion Hseq as [|? ? block rest ? [Hsh Hrec] Hrest
                     |? ? block e' [Hsh Hrec]]; subst.
  - rewrite map_app in Hf. apply follows_app in Hf as [Hf1 _].
    destruct (shape_all_conflicts _ _ _ Hsh s Hf1 Hfail) as (_ & Hr & _).
    rewrite He in Hr. discriminate.
  - destruct (shape_all_conflicts _ _ _ Hsh s Hf Hfail)
      as (Hlen & Hr & Hall).
    rewrite length_map in Hlen. split_and!; try done.
    by apply failed_block_stores_nothing.
Qed.

Lemma sequential_first_other (n : nat) (o : Obj) (os : list Obj)
    (attempts : list Attempt) (r : Result unit) :
  sequential n (o :: os) attempts r ->
  forall s e,
    follows script s (map snd attempts) ->
    script s = Some e -> ¬ conflict e ->
    length attempts = 1 ∧ r = Throw e.
Proof.
  intros Hseq s e Hf Hs Hnc.
  inversion Hseq as [|? ? block rest ? [Hsh Hrec] Hrest
                     |? ? block e' [Hsh Hrec]]; subst.
  - rewrite map_app in Hf. apply follows_app in Hf as [Hf1 _].
    destruct (shape_other_error _ _ _ Hsh s e Hf1 Hs Hnc) as [_ Hr].
    discriminate.
  - destruct (shape_other_error _ _ _ Hsh s e Hf Hs Hnc) as [Hout Hr].
    split; [| done].
    apply (f_equal length) in Hout. by rewrite length_map in Hout.
Qed.

End Scripts.

Lemma steps_follows (eventRegistry : EventRegistry) (w w' : World)
    (new : list Event) :
  steps eventRegistry w w' new ->
  follows (store_outcome eventRegistry) (n_store w)
          (map snd (store_attempts new)).
Proof.
  intros Hst. unfold follows. rewrite length_map.
  rewrite (steps_script _ _ _ _ Hst).
  set (len := length (store_attempts new)).
  replace (seq (n_store w) len) with (Nat.add (n_store w) <$> seq 0 len)
    by (rewrite fmap_add_seq; f_equal; lia).
  by rewrite <- list_fmap_compose.
Qed.

Section RetryBound.

Context {platform : Platform}.

Lemma storeSnapshot_run (eventRegistry : EventRegistry)
    (snapshotEnvelope : loc) (config : BoosterConfig) (w : World) :
  live w snapshotEnvelope ->
  ∃ new,
    steps eventRegistry w
      (snd (storeSnapshot eventRegistry snapshotEnvelope config w)) new
    ∧ retry_shape (maxAttempts - 1) (map snd (store_attempts new))
        (fst (storeSnapshot eventRegistry snapshotEnvelope config w))
    ∧ Forall (fun a => fst a = deref w snapshotEnvelope)
        (store_attempts new).
Proof.
  intros Hl.
  set (logger := getLogger config "events-adapter#storeSnapshot").
  pose proof (steps_log eventRegistry w logger
                "Storing the following snapshot envelope:") as Hlog1.
  simpl in Hlog1. set (w0 := log_event _ w) in Hlog1.
  destruct (guarded_store_run eventRegistry w0 snapshotEnvelope)
    as (new & Hst & Hsh & Hall); [exact Hl |].
  unfold storeSnapshot, bind. simpl. fold logger. fold w0.
  destruct (retryIfError _ _ w0) as [[[]|e] w1]; simpl in *.
  - exists (([EvLog logger "Storing the following snapshot envelope:"]
             ++ new) ++ [EvLog logger "Snapshot stored"]).
    split; [| split].
    + eapply steps_trans; [eapply steps_trans; eassumption |].
      apply (steps_log eventRegistry w1 logger "Snapshot stored").
    + rewrite !store_attempts_app. simpl. by rewrite app_nil_r.
    + rewrite !store_attempts_app. simpl. by rewrite app_nil_r.
  - exists ([EvLog logger "Storing the following snapshot envelope:"]
            ++ new).
    split; [eapply steps_trans; eassumption |].
    rewrite !store_attempts_app. simpl. done.
Qed.

(** C3.  Partial batch durability.  A batch of three live envelopes; the
    store of the first succeeds after [j] conflicts, within the bound;
    every attempt the policy then allows for the second meets a conflict.
    Then [storeEvents] fails with the conflict error of the last attempt;
    the registry holds, after what it held before, the first envelope
    with [persistedAt] set and nothing else; the attempts made are the
    [j + 1] attempts for the first envelope followed by the attempts for
    the second, as many as the bound allows, so none is made for the
    third; and the dispatcher is not called. *)
Theorem storeEvents_partial_batch
    (userApp : UserApp) (eventRegistry : EventRegistry)
    (e1 e2 e3 : loc) (config : BoosterConfig) (w : World) (j : nat) :
  Forall (live w) [e1; e2; e3] ->
  j <= maxAttempts - 1 ->
  (forall i, i < j ->
     ∃ e, store_outcome eventRegistry (n_store w + i) = Some e
          ∧ conflict e) ->
  store_outcome eventRegistry (n_store w + j) = None ->
  (forall i, i <= maxAttempts - 1 ->
     ∃ e, store_outcome eventRegistry (n_store w + S j + i) = Some e
          ∧ conflict e) ->
  let run := storeEvents userApp eventRegistry [e1; e2; e3] config w in
  ∃ err t block1 block2,
    fst run = Throw err
    ∧ conflict err
    ∧ store_outcome eventRegistry (n_store w + S j + (maxAttempts - 1))
      = Some err
    ∧ db (snd run) = db w ++ [persisted (deref w e1) t]
    ∧ store_attempts (history w (snd run)) = block1 ++ block2
    ∧ retry_block (deref w e1) (maxAttempts - 1) block1 (Ok tt)
    ∧ length block1 = S j
    ∧ retry_block (deref w e2) (maxAttempts - 1) block2 (Throw err)
    ∧ length block2 = S (maxAttempts - 1)
    ∧ n_store (snd run) = n_store w + S j + S (maxAttempts - 1)
    ∧ dispatch_calls (history w (snd run)) = []
    ∧ n_dispatch (snd run) = n_dispatch w.
Proof.
  intros Hlive Hj Hfirst Hok Hsecond run. subst run.
  destruct (storeEvents_run eventRegistry userApp [e1; e2; e3] config w
              Hlive) as (w_mid & new & r_store & Hst & Hseq & Hrun).
  pose proof (steps_follows _ _ _ _ Hst) as Hf.
  destruct (Hsecond (maxAttempts - 1)) as (err & Herr & Hc); [lia |].
  simpl in Hseq.
  inversion Hseq as [|? ? block1 rest ? Hb1 Hrest Ho Hatt Hr
                     |? ? block1 e' Hb1]; subst.
  - rewrite <- Hatt in Hf. rewrite map_app in Hf.
    apply follows_app in Hf as [Hf1 Hf2].
    destruct (shape_conflicts_then_ok _ _ _ _ (proj1 Hb1) _ j Hf1 Hfirst
                Hok Hj) as [_ Hlen1].
    rewrite length_map in Hlen1, Hf2. rewrite Hlen1 in Hf2.
    destruct (sequential_first_exhausted _ _ _ _ _ _ Hrest _ Hf2 Hsecond)
      as (Hlen2 & Hr & Hb2 & Hnone).
    rewrite Herr in Hr. simpl in Hr. subst r_store.
    rewrite Hrun. simpl.
    destruct (retry_block_ok_stored _ _ _ Hb1) as [t Ht].
    exists err, t, block1, rest.
    rewrite (history_app w w_mid new) by apply Hst.
    rewrite (steps_db _ _ _ _ Hst), (steps_store _ _ _ _ Hst),
      (steps_dispatch _ _ _ _ Hst), (steps_no_dispatch _ _ _ _ Hst).
    unfold stored_records. rewrite <- Hatt, omap_app, Ht, Hnone.
    rewrite length_app, Hlen1, Hlen2.
    split_and!; try done. lia.
  - destruct (shape_conflicts_then_ok _ _ _ _ (proj1 Hb1) _ j Hf Hfirst
                Hok Hj) as [Habs _]. discriminate.
Qed.

(** C4.  The retry bound, and no retry for other errors.  Take a live
    snapshot envelope, a batch of live envelopes that is not empty, and a
    bound of at least one attempt.

    If the store calls from now on meet a conflict [k] times and succeed
    afterwards, then with [k < maxAttempts] the store of [storeSnapshot]
    succeeds at attempt [k + 1], and the store phase of [storeEvents]
    succeeds with [k] failed attempts and one successful attempt per
    envelope, so [storeEvents] settles as its dispatcher does; with
    [maxAttempts <= k] both fail with the conflict error of attempt
    number [maxAttempts], after exactly [maxAttempts] attempts, and the
    dispatcher is not called.

    If the next store call fails with an error of another class, both
    fail with that error after this one attempt. *)
Theorem retry_is_bounded_and_fails_fast
    (userApp : UserApp) (eventRegistry : EventRegistry)
    (eventEnvelopes : list loc) (snapshotEnvelope : loc)
    (config : BoosterConfig) (w : World) (k : nat) :
  0 < maxAttempts ->
  live w snapshotEnvelope ->
  Forall (live w) eventEnvelopes ->
  eventEnvelopes ≠ [] ->
  let script := store_outcome eventRegistry in
  let s := n_store w in
  let runS := storeSnapshot eventRegistry snapshotEnvelope config w in
  let runE := storeEvents userApp eventRegistry eventEnvelopes config w in
  ((forall i, i < k -> ∃ e, script (s + i) = Some e ∧ conflict e) ->
   (forall i, k <= i -> script (s + i) = None) ->
   (k < maxAttempts ->
      fst runS = Ok tt
      ∧ n_store (snd runS) = s + S k
      ∧ db (snd runS) = db w ++ [deref w snapshotEnvelope]
      ∧ fst runE = settle (dispatch_outcome userApp (n_dispatch w))
      ∧ n_store (snd runE) = s + k + length eventEnvelopes
      ∧ n_dispatch (snd runE) = S (n_dispatch w))
   ∧ (maxAttempts <= k ->
      ∃ e, script (s + (maxAttempts - 1)) = Some e
           ∧ conflict e
           ∧ fst runS = Throw e
           ∧ n_store (snd runS) = s + maxAttempts
           ∧ db (snd runS) = db w
           ∧ fst runE = Throw e
           ∧ n_store (snd runE) = s + maxAttempts
           ∧ db (snd runE) = db w
           ∧ n_dispatch (snd runE) = n_dispatch w))
  ∧ (forall e, script s = Some e -> ¬ conflict e ->
       fst runS = Throw e
       ∧ n_store (snd runS) = s + 1
       ∧ fst runE = Throw e
       ∧ n_store (snd runE) = s + 1
       ∧ n_dispatch (snd runE) = n_dispatch w).
Proof.
  intros Hpos Hsnap Hlive Hne script s runS runE.
  subst script s runS runE.
  destruct (storeSnapshot_run eventRegistry snapshotEnvelope config w Hsnap)
    as (newS & HstS & HshS & HrecS).
  pose proof (steps_follows _ _ _ _ HstS) as HfS.
  destruct (storeEvents_run eventRegistry userApp eventEnvelopes config w
              Hlive) as (w_mid & newE & r_store & HstE & Hseq & Hrun).
  pose proof (steps_follows _ _ _ _ HstE) as HfE.
  destruct eventEnvelopes as [|l0 rest]; [done |]. simpl in Hseq.
  split; [intros Hfail Hlater; split |].
  - intros Hk.
    destruct (shape_conflicts_then_ok _ _ _ _ HshS _ k HfS Hfail)
      as [HrS HlenS]; [by apply Hlater | lia |].
    destruct (sequential_conflicts_then_ok _ _ _ _ _ Hseq _ k HfE Hfail
                Hlater) as [-> HlenE]; [lia |].
    rewrite length_map in HlenS. rewrite HrS in HshS.
    destruct (retry_shape_ok_stored _ _ _ HshS _ eq_refl eq_refl)
      as (o & Hin & Hsto).
    apply list_elem_of_fmap in Hin as (a & -> & Hin).
    rewrite Forall_forall in HrecS. rewrite (HrecS a Hin) in Hsto.
    rewrite Hrun. simpl.
    rewrite (steps_store _ _ _ _ HstS), (steps_db _ _ _ _ HstS),
      (steps_store _ _ _ _ HstE), HlenS, HlenE.
    unfold stored_records. rewrite Hsto. simpl.
    split_and!; try done. rewrite length_map. lia.
  - intros Hk.
    assert (Hall : forall i, i <= maxAttempts - 1 ->
              ∃ e, store_outcome eventRegistry (n_store w + i) = Some e
                   ∧ conflict e).
    { intros i Hi. apply Hfail. lia. }
    destruct (Hall (maxAttempts - 1)) as (e & He & Hc); [lia |].
    destruct (shape_all_conflicts _ _ _ _ HshS _ HfS Hall)
      as (HlenS & HrS & HnoneS).
    destruct (sequential_first_exhausted _ _ _ _ _ _ Hseq _ HfE Hall)
      as (HlenE & HrE & _ & HnoneE).
    rewrite He in HrS, HrE. simpl in HrS, HrE. subst r_store.
    rewrite length_map in HlenS.
    exists e. rewrite Hrun, HrS. simpl.
    rewrite (steps_store _ _ _ _ HstS), (steps_db _ _ _ _ HstS),
      (steps_store _ _ _ _ HstE), (steps_db _ _ _ _ HstE),
      (steps_dispatch _ _ _ _ HstE), HlenS, HlenE.
    unfold stored_records.
    rewrite HnoneE, (failed_block_stores_nothing _ HnoneS), !app_nil_r.
    split_and!; try done; lia.
  - intros e He Hnc.
    destruct (shape_other_error _ _ _ _ HshS _ e HfS He Hnc)
      as [HoutS HrS].
    destruct (sequential_first_other _ _ _ _ _ _ Hseq _ e HfE He Hnc)
      as [HlenE ->].
    apply (f_equal length) in HoutS. rewrite length_map in HoutS.
    rewrite Hrun, HrS. simpl.
    rewrite (steps_store _ _ _ _ HstS), (steps_store _ _ _ _ HstE),
      (steps_dispatch _ _ _ _ HstE), HoutS, HlenE.
    done.
Qed.

End RetryBound.

(** ** The order of timestamps and the registry's sort *)

Lemma ltb_irrefl (s : string) : String.ltb s s = false.
Proof.
  unfold String.ltb. pose proof (String.compare_antisym s s) as H.
  destruct (String.compare s s); simpl in H; congruence.
Qed.

Lemma ltb_asym (a b : string) :
  String.ltb a b = true -> String.ltb b a = false.
Proof.
  unfold String.ltb. rewrite (String.compare_antisym a b).
  by destruct (String.compare b a).
Qed.

Lemma ltb_trans (a b c : string) :
  String.ltb a b = true -> String.ltb b c = true -> String.ltb a c = true.
Proof.
  unfold String.ltb. intros H1 H2.
  destruct (String.compare a b) eqn:E1; try discriminate.
  destruct (String.compare b c) eqn:E2; try discriminate.
  apply String_as_OT.cmp_lt in E1, E2.
  pose proof (String_as_OT.lt_trans _ _ _ E1 E2) as H.
  apply String_as_OT.cmp_lt in H. unfold String_as_OT.cmp in H.
  by rewrite H.
Qed.

Lemma not_later_before (o x y : Obj) :
  String.ltb (createdAt_of o) (createdAt_of x) = true ->
  not_later x y -> not_later o y.
Proof.
  unfold not_later. intros Hox Hxy.
  destruct (String.ltb (createdAt_of y) (createdAt_of o)) eqn:Hyo; [| done].
  by rewrite (ltb_trans _ _ _ Hyo Hox) in Hxy.
Qed.

Lemma insert_by_createdAt_perm (o : Obj) (l : list Obj) :
  insert_by_createdAt o l ≡ₚ o :: l.
Proof.
  induction l as [|x l IH]; simpl; [done |].
  destruct (String.ltb _ _); [done |].
  rewrite IH. apply Permutation_swap.
Qed.

Lemma sort_by_createdAt_perm (l : list Obj) : sort_by_createdAt l ≡ₚ l.
Proof.
  unfold sort_by_createdAt.
  assert (Hgen : forall acc,
            foldl (fun acc o => insert_by_createdAt o acc) acc l ≡ₚ l ++ acc).
  { induction l as [|x l IH]; intros acc; simpl; [done |].
    rewrite IH, insert_by_createdAt_perm. by rewrite Permutation_middle. }
  by rewrite Hgen, app_nil_r.
Qed.

Lemma insert_by_createdAt_sorted (o : Obj) (l : list Obj) :
  StronglySorted not_later l ->
  StronglySorted not_later (insert_by_createdAt o l).
Proof.
  induction 1 as [|x l Hsorted IH Hall]; simpl.
  - by repeat constructor.
  - destruct (String.ltb (createdAt_of o) (createdAt_of x)) eqn:Hox.
    + constructor; [by constructor |]. constructor.
      * unfold not_later. by apply ltb_asym.
      * eapply Forall_impl; [exact Hall |]. intros y Hxy.
        by eapply not_later_before.
    + constructor; [exact IH |].
      rewrite insert_by_createdAt_perm. by constructor.
Qed.

Lemma sort_by_createdAt_sorted (l : list Obj) :
  StronglySorted not_later (sort_by_createdAt l).
Proof.
  unfold sort_by_createdAt.
  assert (Hgen : forall acc, StronglySorted not_later acc ->
            StronglySorted not_later
              (foldl (fun acc o => insert_by_createdAt o acc) acc l)).
  { induction l as [|x l IH]; intros acc Hacc; simpl; [done |].
    by apply IH, insert_by_createdAt_sorted. }
  apply Hgen. constructor.
Qed.

Lemma sorted_last_latest (l : list Obj) (x : Obj) :
  StronglySorted not_later l -> last l = Some x ->
  forall y, y ∈ l -> not_later y x.
Proof.
  induction 1 as [|z l Hsorted IH Hall]; intros Hlast y Hy; [done |].
  destruct l as [|z' l'].
  - simpl in Hlast. apply list_elem_of_singleton in Hy.
    simplify_eq. unfold not_later. apply ltb_irrefl.
  - change (last (z :: z' :: l')) with (last (z' :: l')) in Hlast.
    apply elem_of_cons in Hy as [-> | Hy]; [| by apply IH].
    rewrite Forall_forall in Hall. apply Hall.
    by apply last_Some_elem_of.
Qed.

Section Reads.

Context {platform : Platform}.

Lemma matches_fields (q : Query) (o : Obj) :
  matches q o = true ->
  o !! "entityID" = Some (VStr (q_entityID q))
  ∧ o !! "entityTypeName" = Some (VStr (q_entityTypeName q))
  ∧ o !! "kind" = Some (VStr (q_kind q))
  ∧ forall bound, q_createdAt_gt q = Some bound ->
      ∃ c, o !! "createdAt" = Some (VStr c) ∧ String.ltb bound c = true.
Proof.
  unfold matches. rewrite !andb_true_iff, !bool_decide_eq_true.
  intros [[[Hid Htn] Hkind] Hgt]. split_and!; try done.
  intros bound Hb. rewrite Hb in Hgt. unfold strProp in Hgt.
  destruct (o !! "createdAt") as [[| c | |]|]; try done.
  by exists c.
Qed.

(** C6.  [readEntityEventsSince] asks the registry one query and returns
    its answer as it is.  The query filters on the entity ID and entity
    type name given, on the kind ["event"], and on [createdAt] greater
    than a bound: the origin of the epoch when [since] is absent, [since]
    itself when it is a string that is not empty.  The result of the
    call, value or error, is the result of the registry for this query.
    Every event returned is held by the registry, belongs to the entity,
    and has a [createdAt] strictly after the bound; none has a
    [createdAt] equal to [since]. *)
Theorem readEntityEventsSince_delegates_query
    (eventRegistry : EventRegistry) (config : BoosterConfig)
    (entityTypeName entityID : string) (since : option string)
    (w : World) :
  let fromTime :=
    match since with
    | None => "1970-01-01T00:00:00.000Z"
    | Some "" => "1970-01-01T00:00:00.000Z"
    | Some s => s
    end in
  let q := {| q_entityID := entityID;
              q_entityTypeName := entityTypeName;
              q_kind := "event";
              q_createdAt_gt := Some fromTime |} in
  let run :=
    readEntityEventsSince eventRegistry config entityTypeName entityID
      since w in
  fst run = fst (EventRegistry.query eventRegistry q w)
  ∧ (∃ logs, history w (snd run) = EvQuery q :: logs
             ∧ timeline logs = [] ∧ dispatch_calls logs = []
             ∧ n_query (snd run) = S (n_query w))
  ∧ forall events, fst run = Ok events ->
      events = sort_by_createdAt (filter (fun o => matches q o) (db w))
      ∧ forall ev, ev ∈ events ->
          ev ∈ db w
          ∧ ev !! "entityID" = Some (VStr entityID)
          ∧ ev !! "entityTypeName" = Some (VStr entityTypeName)
          ∧ ev !! "kind" = Some (VStr "event")
          ∧ ∃ createdAt,
              ev !! "createdAt" = Some (VStr createdAt)
              ∧ String.ltb fromTime createdAt = true
              ∧ since ≠ Some createdAt.
Proof.
  intros fromTime q run.
  assert (Hfrom : (if truthy since then default originOfTime since
                   else originOfTime) = fromTime).
  { subst fromTime. by destruct since as [[|a s]|]. }
  assert (Hrun : run
    = match query_outcome eventRegistry (n_query w) with
      | Some e => (Throw e, EventRegistry.count_query (EvQuery q) w)
      | None =>
          (Ok (sort_by_createdAt (filter (fun o => matches q o) (db w))),
           log_event
             (EvLog "events-adapter#readEntityEventsSince"
                ("Loaded events for entity " +:+ entityTypeName
                   +:+ " with ID " +:+ entityID +:+ " with result:"))
             (EventRegistry.count_query (EvQuery q) w))
      end).
  { subst run. unfold readEntityEventsSince, bind, EventRegistry.query.
    rewrite Hfrom. fold q.
    by destruct (query_outcome eventRegistry (n_query w)). }
  rewrite Hrun. unfold EventRegistry.query. fold q.
  destruct (query_outcome eventRegistry (n_query w)) as [e|]; simpl.
  - split_and!; [done | | done].
    exists []. by rewrite (history_app w _ [EvQuery q]).
  - split_and!; [done | |].
    + eexists [EvLog _ _]. split_and!; try done.
      apply history_app. simpl. by rewrite <- app_assoc.
    + intros events [= <-]. split; [done |]. intros ev Hev.
      rewrite sort_by_createdAt_perm in Hev.
      apply list_elem_of_filter in Hev as [Hm Hdb].
      apply Is_true_true in Hm.
      destruct (matches_fields q ev Hm) as (Hid & Htn & Hkind & Hgt).
      destruct (Hgt fromTime eq_refl) as (c & Hc & Hlt).
      split_and!; try done. exists c. split_and!; try done.
      intros ->. subst fromTime. destruct c as [|a c].
      * by vm_compute in Hlt.
      * by rewrite ltb_irrefl in Hlt.
Qed.

(** C7.  [readEntityLatestSnapshot] returns what the registry answers to
    [queryLatestSnapshot] for the entity and the kind ["snapshot"], value
    or error.  With a registry that answers: when it holds no snapshot
    of the entity the call succeeds with the absent value; when it holds
    one the call succeeds with a snapshot of the entity that the registry
    holds and that no other snapshot of the entity is later than.  The
    call fails only with the error of the registry. *)
Theorem readEntityLatestSnapshot_optional_result
    (eventRegistry : EventRegistry) (config : BoosterConfig)
    (entityTypeName entityID : string) (w : World) :
  let q := {| q_entityID := entityID;
              q_entityTypeName := entityTypeName;
              q_kind := "snapshot";
              q_createdAt_gt := None |} in
  let run :=
    readEntityLatestSnapshot eventRegistry config entityTypeName entityID
      w in
  fst run = fst (EventRegistry.queryLatestSnapshot eventRegistry q w)
  ∧ (forall e, query_outcome eventRegistry (n_query w) = Some e ->
       fst run = Throw e)
  ∧ (query_outcome eventRegistry (n_query w) = None ->
       ((forall o, o ∈ db w -> matches q o = false) -> fst run = Ok None)
       ∧ (forall o, o ∈ db w -> matches q o = true ->
            ∃ s, fst run = Ok (Some s)
                 ∧ s ∈ db w
                 ∧ s !! "entityID" = Some (VStr entityID)
                 ∧ s !! "entityTypeName" = Some (VStr entityTypeName)
                 ∧ s !! "kind" = Some (VStr "snapshot")
                 ∧ forall o', o' ∈ db w -> matches q o' = true ->
                     not_later o' s)).
Proof.
  intros q run.
  set (found := sort_by_createdAt (filter (fun o => matches q o) (db w))).
  assert (Hrun : fst run
    = match query_outcome eventRegistry (n_query w) with
      | Some e => Throw e
      | None => Ok (last found)
      end).
  { subst run. unfold readEntityLatestSnapshot, bind,
      EventRegistry.queryLatestSnapshot. fold q. fold found.
    destruct (query_outcome eventRegistry (n_query w)); [done |].
    by destruct (last found). }
  rewrite Hrun. unfold EventRegistry.queryLatestSnapshot. fold q.
  fold found.
  assert (Hfound : forall o, o ∈ found <-> matches q o = true ∧ o ∈ db w).
  { intros o. subst found. rewrite sort_by_createdAt_perm.
    rewrite list_elem_of_filter. by rewrite Is_true_true. }
  destruct (query_outcome eventRegistry (n_query w)) as [e|]; simpl.
  - split_and!; [done | by intros ? [= ->] | done].
  - split_and!; [done | done |]. intros _. split.
    + intros Hnone. destruct (last found) as [s|] eqn:Hlast; [| done].
      apply last_Some_elem_of, Hfound in Hlast as [Hm Hdb].
      by rewrite (Hnone s Hdb) in Hm.
    + intros o Hdb Hm.
      destruct (last found) as [s|] eqn:Hlast.
      * pose proof (last_Some_elem_of _ _ Hlast) as Hs.
        apply Hfound in Hs as [Hms Hsdb].
        destruct (matches_fields q s Hms) as (Hid & Htn & Hkind & _).
        exists s. split_and!; try done.
        intros o' Hdb' Hm'.
        apply (sorted_last_latest found); [| done | by apply Hfound].
        apply sort_by_createdAt_sorted.
      * apply last_None in Hlast.
        assert (Hin : o ∈ found) by by apply Hfound.
        rewrite Hlast in Hin. by apply not_elem_of_nil in Hin.
Qed.

End Reads.

(** ** A failing dispatcher *)

Lemma retry_shape_failed (n : nat) (outs : list (option JsError))
    (r : Result unit) :
  retry_shape n outs r ->
  forall e, r = Throw e -> Forall (fun out => out ≠ None) outs.
Proof.
  induction 1 as [n|n e Hc|e Hc|n e rest r Hc Hsh IH]; intros e' Hr;
    try discriminate; try by repeat constructor.
  constructor; [done | by eapply IH].
Qed.

Lemma sequential_failed_stores_fewer (n : nat) (objs : list Obj)
    (attempts : list Attempt) (r : Result unit) :
  sequential n objs attempts r ->
  forall e, r = Throw e ->
    length (omap stored_of attempts) < length objs.
Proof.
  induction 1 as [|o os block rest r Hb Hseq IH|o os block e [Hsh Hrec]];
    intros e' Hr; try discriminate.
  - destruct (retry_block_ok_stored _ _ _ Hb) as [t Ht].
    rewrite omap_app, Ht. simpl. specialize (IH e' Hr). lia.
  - rewrite (failed_block_stores_nothing block); [simpl; lia |].
    by eapply retry_shape_failed.
Qed.

Section DispatchFailure.

Context {platform : Platform}.

(** C8, as the code has it.  When every envelope of a batch of live
    envelopes has been stored and the call of the dispatcher then fails,
    [storeEvents] fails with the error of the dispatcher itself, class
    and message as the dispatcher raised them: it is not turned into an
    error of a class of its own.  The dispatcher has been called once and
    is not called again; that call is the last thing [storeEvents] does,
    so no envelope is stored a second time: the registry holds, after
    what it held before, one record per envelope. *)
Theorem storeEvents_dispatch_failure_propagates
    (userApp : UserApp) (eventRegistry : EventRegistry)
    (eventEnvelopes : list loc) (config : BoosterConfig) (w : World)
    (e : JsError) :
  Forall (live w) eventEnvelopes ->
  let run := storeEvents userApp eventRegistry eventEnvelopes config w in
  length (stored_records (history w (snd run))) = length eventEnvelopes ->
  dispatch_outcome userApp (n_dispatch w) = Some e ->
  fst run = Throw e
  ∧ ∃ ts before,
      length ts = length eventEnvelopes
      ∧ history w (snd run)
        = before ++ [EvDispatch eventEnvelopes
                       (map (deref w) eventEnvelopes) (Some e)]
      ∧ dispatch_calls before = []
      ∧ stored_records before
        = zip_with persisted (map (deref w) eventEnvelopes) ts
      ∧ db (snd run)
        = db w ++ zip_with persisted (map (deref w) eventEnvelopes) ts
      ∧ n_dispatch (snd run) = S (n_dispatch w).
Proof.
  intros Hlive run. subst run.
  destruct (storeEvents_run eventRegistry userApp eventEnvelopes config w
              Hlive) as (w_mid & new & r_store & Hst & Hseq & Hrun).
  destruct r_store as [[]|e0]; rewrite Hrun; simpl.
  - intros _ Hout. rewrite Hout. split; [done |].
    destruct (sequential_ok_stored _ _ _ _ Hseq eq_refl)
      as (ts & Hlen & Hsto).
    rewrite length_map in Hlen.
    exists ts, new. split_and!; try done.
    + by apply history_app.
    + apply Hst.
    + rewrite (steps_db _ _ _ _ Hst). by rewrite <- Hsto.
  - intros Hall _. exfalso.
    rewrite (history_app w w_mid new) in Hall by apply Hst.
    pose proof (sequential_failed_stores_fewer _ _ _ _ Hseq e0 eq_refl)
      as Hlt.
    rewrite length_map in Hlt. unfold stored_records in Hall. lia.
Qed.

End DispatchFailure.

(** * The scenario, run through the theorems *)

Lemma sample_batch_live : Forall (live sampleWorld) [1; 2; 3]%positive.
Proof. repeat constructor; by vm_compute. Qed.

Lemma sample_pair_live : Forall (live sampleWorld) [1; 2]%positive.
Proof. repeat constructor; by vm_compute. Qed.

(** The retry of the sample run carries the reading made for it. *)
Example retriedRun_timestamps :
  map (fun a => strProp (fst a) "persistedAt")
      (store_attempts (trace (snd retriedRun)))
  = [Some "2024-05-01T10:00:00.000Z";
     Some "2024-05-01T10:00:01.000Z";
     Some "2024-05-01T10:00:02.000Z"]
  ∧ map snd (store_attempts (trace (snd retriedRun)))
    = [Some conflictError; None; None].
Proof. by vm_compute. Qed.

Lemma storeEvents_sequential_witness :
  Forall (live sampleWorld) [1; 2]%positive
  ∧ ∃ r_store,
      sequential 2 (map (deref sampleWorld) [1; 2]%positive)
        (store_attempts (history sampleWorld (snd retriedRun))) r_store
      ∧ (forall e, r_store = Throw e -> fst retriedRun = Throw e)
      ∧ (r_store = Ok tt
         <-> dispatch_calls (history sampleWorld (snd retriedRun)) ≠ []).
Proof.
  split; [exact sample_pair_live |].
  exact (storeEvents_sequential_in_input_order (platform := samplePlatform)
           healthyApp (conflictsThenOk 1) [1; 2]%positive sampleConfig
           sampleWorld sample_pair_live).
Defined.

Lemma storeEvents_dispatch_witness :
  Forall (live sampleWorld) [1; 2]%positive
  ∧ fst retriedRun = Ok tt
  ∧ ∃ ts before,
      length ts = 2
      ∧ history sampleWorld (snd retriedRun)
        = before ++ [EvDispatch [1; 2]%positive
                       (map (deref sampleWorld) [1; 2]%positive) None]
      ∧ dispatch_calls before = []
      ∧ stored_records before
        = zip_with persisted (map (deref sampleWorld) [1; 2]%positive) ts
      ∧ db (snd retriedRun)
        = db sampleWorld
          ++ zip_with persisted (map (deref sampleWorld) [1; 2]%positive) ts
      ∧ n_dispatch (snd retriedRun) = 1.
Proof.
  assert (Hok : fst retriedRun = Ok tt) by (vm_compute; reflexivity).
  split; [exact sample_pair_live | split; [exact Hok |]].
  exact (storeEvents_dispatches_once_after_success
           (platform := samplePlatform) healthyApp (conflictsThenOk 1)
           [1; 2]%positive sampleConfig sampleWorld sample_pair_live Hok).
Defined.

Lemma storeEvents_partial_batch_witness :
  Forall (live sampleWorld) [1; 2; 3]%positive
  ∧ 1 <= maxAttempts (Platform := samplePlatform) - 1
  ∧ (forall i, i < 1 ->
       ∃ e, store_outcome onlySecondCallSucceeds (n_store sampleWorld + i)
            = Some e ∧ conflict e)
  ∧ store_outcome onlySecondCallSucceeds (n_store sampleWorld + 1) = None
  ∧ (forall i, i <= maxAttempts (Platform := samplePlatform) - 1 ->
       ∃ e, store_outcome onlySecondCallSucceeds (n_store sampleWorld + 2 + i)
            = Some e ∧ conflict e)
  ∧ ∃ err t block1 block2,
      fst stuckRun = Throw err
      ∧ conflict err
      ∧ store_outcome onlySecondCallSucceeds (n_store sampleWorld + 2 + 2)
        = Some err
      ∧ db (snd stuckRun)
        = db sampleWorld ++ [persisted (deref sampleWorld 1) t]
      ∧ store_attempts (history sampleWorld (snd stuckRun)) = block1 ++ block2
      ∧ retry_block (deref sampleWorld 1) 2 block1 (Ok tt)
      ∧ length block1 = 2
      ∧ retry_block (deref sampleWorld 2) 2 block2 (Throw err)
      ∧ length block2 = 3
      ∧ n_store (snd stuckRun) = n_store sampleWorld + 2 + 3
      ∧ dispatch_calls (history sampleWorld (snd stuckRun)) = []
      ∧ n_dispatch (snd stuckRun) = n_dispatch sampleWorld.
Proof.
  assert (Hj : 1 <= maxAttempts (Platform := samplePlatform) - 1)
    by (simpl; lia).
  assert (Hfirst : forall i, i < 1 ->
            ∃ e, store_outcome onlySecondCallSucceeds
                   (n_store sampleWorld + i) = Some e ∧ conflict e).
  { intros i Hi. exists conflictError. split; [| reflexivity].
    simpl. destruct (decide (i = 1)); [lia | reflexivity]. }
  assert (Hok : store_outcome onlySecondCallSucceeds (n_store sampleWorld + 1)
                = None) by reflexivity.
  assert (Hsecond :
            forall i, i <= maxAttempts (Platform := samplePlatform) - 1 ->
            ∃ e, store_outcome onlySecondCallSucceeds
                   (n_store sampleWorld + 2 + i) = Some e ∧ conflict e).
  { intros i Hi. exists conflictError. split; [| reflexivity].
    simpl. destruct (decide (S (S i) = 1)); [lia | reflexivity]. }
  split_and!; [exact sample_batch_live | exact Hj | exact Hfirst | exact Hok
              | exact Hsecond |].
  exact (storeEvents_partial_batch (platform := samplePlatform) healthyApp
           onlySecondCallSucceeds 1 2 3 sampleConfig sampleWorld 1
           sample_batch_live Hj Hfirst Hok Hsecond).
Defined.

Lemma retry_is_bounded_witness :
  (0 < maxAttempts (Platform := samplePlatform)
   ∧ live sampleWorld 4
   ∧ Forall (live sampleWorld) [1; 2]%positive
   ∧ [1; 2]%positive ≠ [])
  ∧ (fst (storeSnapshot (platform := samplePlatform) (conflictsThenOk 1) 4
            sampleConfig sampleWorld) = Ok tt
     ∧ n_store (snd (storeSnapshot (platform := samplePlatform)
                       (conflictsThenOk 1) 4 sampleConfig sampleWorld)) = 2
     ∧ fst retriedRun = Ok tt
     ∧ n_store (snd retriedRun) = 3)
  ∧ (fst (storeSnapshot (platform := samplePlatform) (conflictsThenOk 5) 4
            sampleConfig sampleWorld) = Throw conflictError
     ∧ n_store (snd (storeSnapshot (platform := samplePlatform)
                       (conflictsThenOk 5) 4 sampleConfig sampleWorld)) = 3
     ∧ fst (storeEvents (platform := samplePlatform) healthyApp
              (conflictsThenOk 5) [1; 2]%positive sampleConfig sampleWorld)
       = Throw conflictError
     ∧ n_store (snd (storeEvents (platform := samplePlatform) healthyApp
                       (conflictsThenOk 5) [1; 2]%positive sampleConfig
                       sampleWorld)) = 3)
  ∧ (fst (storeSnapshot (platform := samplePlatform) brokenRegistry 4
            sampleConfig sampleWorld) = Throw ioError
     ∧ n_store (snd (storeSnapshot (platform := samplePlatform)
                       brokenRegistry 4 sampleConfig sampleWorld)) = 1
     ∧ fst (storeEvents (platform := samplePlatform) healthyApp
              brokenRegistry [1; 2]%positive sampleConfig sampleWorld)
       = Throw ioError
     ∧ n_store (snd (storeEvents (platform := samplePlatform) healthyApp
                       brokenRegistry [1; 2]%positive sampleConfig
                       sampleWorld)) = 1).
Proof.
  assert (Hpos : 0 < maxAttempts (Platform := samplePlatform))
    by (simpl; lia).
  assert (Hsnap : live sampleWorld 4) by (by vm_compute).
  assert (Hne : [1; 2]%positive ≠ []) by discriminate.
  assert (Hscript : forall k i, i < k ->
            ∃ e, store_outcome (conflictsThenOk k) (n_store sampleWorld + i)
                 = Some e ∧ conflict e).
  { intros k i Hi. exists conflictError. split; [| reflexivity].
    simpl. destruct (decide (i < k)); [reflexivity | lia]. }
  assert (Hlater : forall k i, k <= i ->
            store_outcome (conflictsThenOk k) (n_store sampleWorld + i) = None).
  { intros k i Hi. simpl. destruct (decide (i < k)); [lia | reflexivity]. }
  split;
    [split_and!; [exact Hpos | exact Hsnap | exact sample_pair_live
                 | exact Hne] |].
  split; [| split].
  - destruct (retry_is_bounded_and_fails_fast (platform := samplePlatform)
                healthyApp (conflictsThenOk 1) [1; 2]%positive 4 sampleConfig
                sampleWorld 1 Hpos Hsnap sample_pair_live Hne)
      as [Hconf _].
    destruct (Hconf (Hscript 1) (Hlater 1)) as [Hlt _].
    destruct Hlt as (HrS & HnS & _ & HrE & HnE & _); [simpl; lia |].
    split_and!; [exact HrS | exact HnS | exact HrE | exact HnE].
  - destruct (retry_is_bounded_and_fails_fast (platform := samplePlatform)
                healthyApp (conflictsThenOk 5) [1; 2]%positive 4 sampleConfig
                sampleWorld 5 Hpos Hsnap sample_pair_live Hne)
      as [Hconf _].
    destruct (Hconf (Hscript 5) (Hlater 5)) as [_ Hge].
    destruct Hge as (e & He & _ & HrS & HnS & _ & HrE & HnE & _);
      [simpl; lia |].
    simpl in He. injection He as <-.
    split_and!; [exact HrS | exact HnS | exact HrE | exact HnE].
  - destruct (retry_is_bounded_and_fails_fast (platform := samplePlatform)
                healthyApp brokenRegistry [1; 2]%positive 4 sampleConfig
                sampleWorld 0 Hpos Hsnap sample_pair_live Hne)
      as [_ Hother].
    destruct (Hother ioError eq_refl) as (HrS & HnS & HrE & HnE & _);
      [discriminate |].
    split_and!; [exact HrS | exact HnS | exact HrE | exact HnE].
Defined.

Lemma readEntityEventsSince_witness :
  fst (readEntityEventsSince healthyRegistry sampleConfig "Order" "order-1"
         (Some "2024-04-30T08:00:00.000Z") sampleStoredWorld)
  = Ok [sampleEnvelope "2024-04-30T08:00:01.000Z" 12]
  ∧ sampleEnvelope "2024-04-30T08:00:01.000Z" 12
    ∈ [sampleEnvelope "2024-04-30T08:00:01.000Z" 12]
  ∧ sampleEnvelope "2024-04-30T08:00:01.000Z" 12 ∈ db sampleStoredWorld
  ∧ sampleEnvelope "2024-04-30T08:00:01.000Z" 12 !! "entityID"
    = Some (VStr "order-1")
  ∧ sampleEnvelope "2024-04-30T08:00:01.000Z" 12 !! "entityTypeName"
    = Some (VStr "Order")
  ∧ sampleEnvelope "2024-04-30T08:00:01.000Z" 12 !! "kind"
    = Some (VStr "event")
  ∧ ∃ createdAt,
      sampleEnvelope "2024-04-30T08:00:01.000Z" 12 !! "createdAt"
      = Some (VStr createdAt)
      ∧ String.ltb "2024-04-30T08:00:00.000Z" createdAt = true
      ∧ Some "2024-04-30T08:00:00.000Z" ≠ Some createdAt.
Proof.
  assert (Hok : fst (readEntityEventsSince healthyRegistry sampleConfig
                       "Order" "order-1" (Some "2024-04-30T08:00:00.000Z")
                       sampleStoredWorld)
                = Ok [sampleEnvelope "2024-04-30T08:00:01.000Z" 12])
    by (vm_compute; reflexivity).
  assert (Hin : sampleEnvelope "2024-04-30T08:00:01.000Z" 12
                ∈ [sampleEnvelope "2024-04-30T08:00:01.000Z" 12])
    by apply list_elem_of_here.
  destruct (readEntityEventsSince_delegates_query healthyRegistry
              sampleConfig "Order" "order-1"
              (Some "2024-04-30T08:00:00.000Z") sampleStoredWorld)
    as (_ & _ & Hevents).
  destruct (Hevents _ Hok) as [_ Hall].
  exact (conj Hok (conj Hin (Hall _ Hin))).
Defined.

Lemma readEntityLatestSnapshot_witness :
  (query_outcome healthyRegistry (n_query sampleStoredWorld) = None
   ∧ sampleSnapshot "2024-04-30T08:00:03.000Z" 14 ∈ db sampleStoredWorld
   ∧ matches (mkQuery "order-1" "Order" "snapshot" None)
       (sampleSnapshot "2024-04-30T08:00:03.000Z" 14) = true
   ∧ forall o, o ∈ db sampleStoredWorld ->
       matches (mkQuery "order-2" "Order" "snapshot" None) o = false)
  ∧ (∃ s, fst (readEntityLatestSnapshot healthyRegistry sampleConfig "Order"
                 "order-1" sampleStoredWorld) = Ok (Some s)
          ∧ s ∈ db sampleStoredWorld
          ∧ s !! "entityID" = Some (VStr "order-1")
          ∧ s !! "entityTypeName" = Some (VStr "Order")
          ∧ s !! "kind" = Some (VStr "snapshot")
          ∧ forall o', o' ∈ db sampleStoredWorld ->
              matches (mkQuery "order-1" "Order" "snapshot" None) o' = true ->
              not_later o' s)
  ∧ fst (readEntityLatestSnapshot healthyRegistry sampleConfig "Order"
           "order-2" sampleStoredWorld) = Ok None.
Proof.
  assert (Hq : query_outcome healthyRegistry (n_query sampleStoredWorld)
               = None) by reflexivity.
  assert (Hin : sampleSnapshot "2024-04-30T08:00:03.000Z" 14
                ∈ db sampleStoredWorld).
  { do 3 apply list_elem_of_further. apply list_elem_of_here. }
  assert (Hm : matches (mkQuery "order-1" "Order" "snapshot" None)
                 (sampleSnapshot "2024-04-30T08:00:03.000Z" 14) = true)
    by (vm_compute; reflexivity).
  assert (Hnone : forall o, o ∈ db sampleStoredWorld ->
            matches (mkQuery "order-2" "Order" "snapshot" None) o = false).
  { apply Forall_forall. repeat constructor. }
  split; [split_and!; [exact Hq | exact Hin | exact Hm | exact Hnone] |].
  destruct (readEntityLatestSnapshot_optional_result healthyRegistry
              sampleConfig "Order" "order-1" sampleStoredWorld)
    as (_ & _ & Hfound).
  destruct (readEntityLatestSnapshot_optional_result healthyRegistry
              sampleConfig "Order" "order-2" sampleStoredWorld)
    as (_ & _ & Habsent).
  split.
  - exact (proj2 (Hfound Hq) _ Hin Hm).
  - exact (proj1 (Habsent Hq) Hnone).
Defined.

(** C8 as the claim has it fails.  Both envelopes of the batch are stored,
    the dispatcher is called and fails with an error of the conflict class;
    [storeEvents] fails with that very error, which is of the conflict
    class, and its result is the result of the run in which the store of
    the second envelope exhausted its attempts and the dispatcher was never
    called.  The same holds for an error of another class and a registry
    that fails with it. *)
Lemma dispatch_failure_is_not_a_distinct_error :
  length (stored_records
            (history sampleWorld (snd (undeliveredRun conflictError)))) = 2
  ∧ dispatch_calls (history sampleWorld (snd (undeliveredRun conflictError)))
    = [([1; 2]%positive, map (deref sampleWorld) [1; 2]%positive,
        Some conflictError)]
  ∧ fst (undeliveredRun conflictError) = Throw conflictError
  ∧ error_class conflictError = OptimisticConcurrencyUnexpectedVersionError
  ∧ dispatch_calls (history sampleWorld (snd exhaustedRun)) = []
  ∧ fst (undeliveredRun conflictError) = fst exhaustedRun
  ∧ fst (undeliveredRun ioError)
    = fst (storeEvents (platform := samplePlatform) healthyApp brokenRegistry
             [1; 2]%positive sampleConfig sampleWorld).
Proof. split_and!; vm_compute; reflexivity. Qed.

Lemma storeEvents_dispatch_failure_witness :
  Forall (live sampleWorld) [1; 2]%positive
  ∧ length (stored_records
              (history sampleWorld (snd (undeliveredRun ioError)))) = 2
  ∧ dispatch_outcome (failingApp ioError) (n_dispatch sampleWorld)
    = Some ioError
  ∧ fst (undeliveredRun ioError) = Throw ioError
  ∧ ∃ (ts : list string) (before : list Event),
      length ts = 2
      ∧ history sampleWorld (snd (undeliveredRun ioError))
        = before ++ [EvDispatch [1; 2]%positive
                       (map (deref sampleWorld) [1; 2]%positive)
                       (Some ioError)]
      ∧ dispatch_calls before = []
      ∧ stored_records before
        = zip_with persisted (map (deref sampleWorld) [1; 2]%positive) ts
      ∧ db (snd (undeliveredRun ioError))
        = db sampleWorld
          ++ zip_with persisted (map (deref sampleWorld) [1; 2]%positive) ts
      ∧ n_dispatch (snd (undeliveredRun ioError)) = 1.
Proof.
  assert (Hall : length (stored_records
                   (history sampleWorld (snd (undeliveredRun ioError)))) = 2)
    by (vm_compute; reflexivity).
  assert (Hout : dispatch_outcome (failingApp ioError)
                   (n_dispatch sampleWorld) = Some ioError) by reflexivity.
  split_and!; [exact sample_pair_live | exact Hall | exact Hout | ..];
    apply (storeEvents_dispatch_failure_propagates
             (platform := samplePlatform) (failingApp ioError)
             healthyRegistry [1; 2]%positive sampleConfig sampleWorld ioError
             sample_pair_live Hall Hout).
Defined.

Lemma adapter_leaves_envelopes_unchanged_witness :
  heap sampleWorld !! 1%positive
  = Some (sampleEnvelope "2024-04-30T08:00:00.000Z" 11)
  ∧ heap (snd retriedRun) !! 1%positive
    = Some (sampleEnvelope "2024-04-30T08:00:00.000Z" 11)
  ∧ sampleEnvelope "2024-04-30T08:00:00.000Z" 11 !! "persistedAt" = None
  ∧ heap (snd (storeSnapshot (platform := samplePlatform)
                 (conflictsThenOk 1) 4 sampleConfig sampleWorld)) !! 1%positive
    = Some (sampleEnvelope "2024-04-30T08:00:00.000Z" 11)
  ∧ heap (snd (persistEvent (platform := samplePlatform) (conflictsThenOk 1)
                 1 sampleWorld)) !! 1%positive
    = Some (sampleEnvelope "2024-04-30T08:00:00.000Z" 11).
Proof.
  assert (Hl : heap sampleWorld !! 1%positive
               = Some (sampleEnvelope "2024-04-30T08:00:00.000Z" 11))
    by (vm_compute; reflexivity).
  destruct (adapter_leaves_envelopes_unchanged (platform := samplePlatform)
              healthyApp (conflictsThenOk 1) [1; 2]%positive 4 sampleConfig
              "Order" "order-1" None sampleWorld 1 _ Hl)
    as (HE & HS & _ & _ & HP).
  destruct HP as (_ & _ & _ & HP & _).
  split_and!; [exact Hl | exact HE | by vm_compute | exact HS | exact HP].
Defined.

(** * Further properties of the adapter *)

(** ** [rawEventsToEnvelopes] *)

(** X1.  [rawEventsToEnvelopes] converts and checks nothing: it returns the
    elements it is given, as they are, in the same order, whatever they
    are. *)
Theorem rawEventsToEnvelopes_keeps_events {A} (rawEvents : list A) :
  rawEventsToEnvelopes rawEvents = rawEvents
  ∧ length (rawEventsToEnvelopes rawEvents) = length rawEvents
  ∧ forall i, rawEventsToEnvelopes rawEvents !! i = rawEvents !! i.
Proof.
  assert (Heq : rawEventsToEnvelopes rawEvents = rawEvents).
  { unfold rawEventsToEnvelopes.
    induction rawEvents as [|x l IH]; simpl; [done | by rewrite IH]. }
  by rewrite Heq.
Qed.

(** ** The two reads *)

Section ReadsOnly.

Context {platform : Platform}.

Lemma readEntityEventsSince_run (eventRegistry : EventRegistry)
    (config : BoosterConfig) (entityTypeName entityID : string)
    (since : option string) (w : World) :
  let q := eventsQuery entityTypeName entityID since in
  readEntityEventsSince eventRegistry config entityTypeName entityID since w
  = match query_outcome eventRegistry (n_query w) with
    | Some e => (Throw e, EventRegistry.count_query (EvQuery q) w)
    | None =>
        (Ok (sort_by_createdAt (filter (fun o => matches q o) (db w))),
         log_event
           (EvLog "events-adapter#readEntityEventsSince"
              ("Loaded events for entity " +:+ entityTypeName
                 +:+ " with ID " +:+ entityID +:+ " with result:"))
           (EventRegistry.count_query (EvQuery q) w))
    end.
Proof.
  intros q. unfold readEntityEventsSince, bind, EventRegistry.query.
  replace (if truthy since then default originOfTime since else originOfTime)
    with (match since with
          | None => "1970-01-01T00:00:00.000Z"
          | Some "" => "1970-01-01T00:00:00.000Z"
          | Some s => s
          end) by (by destruct since as [[|a s]|]).
  fold (eventsQuery entityTypeName entityID since). fold q.
  by destruct (query_outcome eventRegistry (n_query w)).
Qed.

Lemma readEntityLatestSnapshot_run (eventRegistry : EventRegistry)
    (config : BoosterConfig) (entityTypeName entityID : string) (w : World) :
  let q := snapshotQuery entityTypeName entityID in
  let found :=
    last (sort_by_createdAt (filter (fun o => matches q o) (db w))) in
  readEntityLatestSnapshot eventRegistry config entityTypeName entityID w
  = match query_outcome eventRegistry (n_query w) with
    | Some e =>
        (Throw e, EventRegistry.count_query (EvQueryLatestSnapshot q) w)
    | None =>
        (Ok found,
         log_event
           (EvLog "events-adapter#readEntityLatestSnapshot"
              (match found with
               | Some _ =>
                   "Snapshot found for entity " +:+ entityTypeName
                     +:+ " with ID " +:+ entityID +:+ ":"
               | None =>
                   "No snapshot found for entity " +:+ entityTypeName
                     +:+ " with ID " +:+ entityID +:+ "."
               end))
           (EventRegistry.count_query (EvQueryLatestSnapshot q) w))
    end.
Proof.
  intros q found.
  unfold readEntityLatestSnapshot, bind, EventRegistry.queryLatestSnapshot.
  fold (snapshotQuery entityTypeName entityID). fold q. fold found.
  destruct (query_outcome eventRegistry (n_query w)); [done |].
  by destruct found.
Qed.

(** X2.  An empty [since] is no lower bound.  [readEntityEventsSince] with
    the empty string for [since] does what it does when [since] is absent:
    it asks for the events after the origin of the epoch, not for the
    events after the empty string. *)
Theorem readEntityEventsSince_empty_since
    (eventRegistry : EventRegistry) (config : BoosterConfig)
    (entityTypeName entityID : string) (w : World) :
  readEntityEventsSince eventRegistry config entityTypeName entityID
    (Some "") w
  = readEntityEventsSince eventRegistry config entityTypeName entityID
      None w
  ∧ queries (history w
       (snd (readEntityEventsSince eventRegistry config entityTypeName
               entityID (Some "") w)))
    = [ {| q_entityID := entityID;
           q_entityTypeName := entityTypeName;
           q_kind := "event";
           q_createdAt_gt := Some "1970-01-01T00:00:00.000Z" |} ].
Proof.
  split; [reflexivity |].
  rewrite readEntityEventsSince_run.
  destruct (query_outcome eventRegistry (n_query w)); simpl.
  - by rewrite (history_app w _ [EvQuery (eventsQuery entityTypeName entityID
                                            (Some ""))]).
  - erewrite history_app; [| simpl; by rewrite <- app_assoc]. done.
Qed.

(** X3.  The reads read.  [readEntityEventsSince] and
    [readEntityLatestSnapshot] ask the registry one query and do nothing
    else to the world: the registry holds what it held, no object is
    created or changed, nothing is stored or dispatched, the clock is not
    read.  The one debug line is written after an answer of the registry
    and not after its failure. *)
Theorem reads_only_query
    (eventRegistry : EventRegistry) (config : BoosterConfig)
    (entityTypeName entityID : string) (since : option string) (w : World) :
  let unchanged (w' : World) :=
    db w' = db w ∧ heap w' = heap w ∧ n_store w' = n_store w
    ∧ n_now w' = n_now w ∧ n_dispatch w' = n_dispatch w
    ∧ n_query w' = S (n_query w)
    ∧ timeline (history w w') = [] ∧ dispatch_calls (history w w') = [] in
  let events :=
    readEntityEventsSince eventRegistry config entityTypeName entityID
      since w in
  let snapshot :=
    readEntityLatestSnapshot eventRegistry config entityTypeName entityID w in
  unchanged (snd events)
  ∧ queries (history w (snd events))
    = [eventsQuery entityTypeName entityID since]
  ∧ length (history w (snd events))
    = match query_outcome eventRegistry (n_query w) with
      | Some _ => 1
      | None => 2
      end
  ∧ unchanged (snd snapshot)
  ∧ queries (history w (snd snapshot))
    = [snapshotQuery entityTypeName entityID]
  ∧ length (history w (snd snapshot))
    = match query_outcome eventRegistry (n_query w) with
      | Some _ => 1
      | None => 2
      end.
Proof.
  intros unchanged events snapshot. subst unchanged events snapshot.
  rewrite readEntityEventsSince_run, readEntityLatestSnapshot_run.
  destruct (query_outcome eventRegistry (n_query w)) as [e|]; simpl.
  - rewrite (history_app w _ [EvQuery (eventsQuery entityTypeName entityID
                                         since)]) by done.
    rewrite (history_app w _ [EvQueryLatestSnapshot
                                (snapshotQuery entityTypeName entityID)])
      by done.
    by split_and!.
  - erewrite !history_app; [| simpl; by rewrite <- app_assoc ..].
    by split_and!.
Qed.

(** X4.  Reads can be repeated.  A second [readEntityLatestSnapshot] or
    [readEntityEventsSince] right after the first gives the result of the
    first, whenever the registry settles the second query as it settled the
    first. *)
Theorem reads_are_repeatable
    (eventRegistry : EventRegistry) (config : BoosterConfig)
    (entityTypeName entityID : string) (since : option string) (w : World) :
  query_outcome eventRegistry (S (n_query w))
  = query_outcome eventRegistry (n_query w) ->
  fst (readEntityLatestSnapshot eventRegistry config entityTypeName entityID
         (snd (readEntityLatestSnapshot eventRegistry config entityTypeName
                 entityID w)))
  = fst (readEntityLatestSnapshot eventRegistry config entityTypeName
           entityID w)
  ∧ fst (readEntityEventsSince eventRegistry config entityTypeName entityID
           since
           (snd (readEntityEventsSince eventRegistry config entityTypeName
                   entityID since w)))
    = fst (readEntityEventsSince eventRegistry config entityTypeName
             entityID since w).
Proof.
  intros Hsame.
  pose proof (reads_only_query eventRegistry config entityTypeName entityID
                since w) as (HE & _ & _ & HS & _).
  destruct HE as (HdbE & _ & _ & _ & _ & HqE & _).
  destruct HS as (HdbS & _ & _ & _ & _ & HqS & _).
  set (wS := snd (readEntityLatestSnapshot _ _ _ _ w)) in *.
  set (wE := snd (readEntityEventsSince _ _ _ _ _ w)) in *.
  clearbody wS wE.
  rewrite !readEntityLatestSnapshot_run, !readEntityEventsSince_run.
  rewrite HqS, HdbS, HqE, HdbE, Hsame.
  by destruct (query_outcome eventRegistry (n_query w)).
Qed.

End ReadsOnly.

(** ** [storeSnapshot] *)

Lemma retry_shape_length (n : nat) (outs : list (option JsError))
    (r : Result unit) :
  retry_shape n outs r -> 1 <= length outs <= S n.
Proof.
  induction 1 as [n|n e Hc|e Hc|n e rest r Hc Hsh IH]; simpl; lia.
Qed.

Lemma retry_shape_last (n : nat) (outs : list (option JsError))
    (r : Result unit) :
  retry_shape n outs r -> ∃ out, last outs = Some out ∧ r = settle out.
Proof.
  induction 1 as [n|n e Hc|e Hc|n e rest r Hc Hsh IH];
    [by exists None | by exists (Some e) | by exists (Some e) |].
  destruct IH as (out & Hlast & Hr). exists out. split; [| done].
  destruct rest; [done | exact Hlast].
Qed.

Section Snapshot.

Context {platform : Platform}.

Lemma snapshot_retry_run (eventRegistry : EventRegistry) (l : loc)
    (n : nat) (w : World) (r : Result unit) (w' : World) :
  retryLoop n (EventRegistry.store eventRegistry l)
    OptimisticConcurrencyUnexpectedVersionError w = (r, w') ->
  ∃ new,
    trace w' = trace w ++ new
    ∧ Forall (snapshot_event l (deref w l)) new
    ∧ heap w' = heap w ∧ n_now w' = n_now w
    ∧ n_query w' = n_query w ∧ n_dispatch w' = n_dispatch w.
Proof.
  revert w. induction n as [|n IH]; intros w;
    rewrite retryLoop_unfold; unfold EventRegistry.store at 1;
    destruct (store_outcome eventRegistry (n_store w)) as [e|]; simpl;
    try destruct (decide _); simpl;
    try (intros [= <- <-]; eexists [_];
         split_and!; [reflexivity | | done ..]; by repeat constructor).
  intros Hrec. apply IH in Hrec as (new & Htr & Hall & Hh & Hn & Hq & Hd).
  simpl in *. eexists (_ :: EvBackoff :: new).
  split_and!; try done.
  - rewrite Htr, <- !app_assoc. reflexivity.
  - constructor; [done |]. constructor; [done |]. exact Hall.
Qed.

(** X5.  A snapshot is stored as it is.  Whatever the registry does,
    [storeSnapshot] adds to the history only debug lines, pauses between
    attempts, and store calls that hand the registry the snapshot envelope
    itself, with the content it has: no copy is made and no [persistedAt]
    is set, no object is created or changed, the clock is not read, and
    neither the dispatcher nor a query is called. *)
Theorem storeSnapshot_hands_over_the_envelope
    (eventRegistry : EventRegistry) (snapshotEnvelope : loc)
    (config : BoosterConfig) (w : World) :
  let w' := snd (storeSnapshot eventRegistry snapshotEnvelope config w) in
  Forall (snapshot_event snapshotEnvelope (deref w snapshotEnvelope))
         (history w w')
  ∧ Forall (fun record => record = snapshotEnvelope)
           (store_refs (history w w'))
  ∧ heap w' = heap w
  ∧ n_now w' = n_now w
  ∧ n_query w' = n_query w
  ∧ n_dispatch w' = n_dispatch w.
Proof.
  intros w'. subst w'.
  set (logger := getLogger config "events-adapter#storeSnapshot").
  set (w0 := log_event
               (EvLog logger "Storing the following snapshot envelope:") w).
  assert (Hrefs : forall tr,
            Forall (snapshot_event snapshotEnvelope
                      (deref w snapshotEnvelope)) tr ->
            Forall (fun record => record = snapshotEnvelope) (store_refs tr)).
  { induction 1 as [|e tr He Htl IH]; [constructor |].
    destruct e; simpl in *; try done. constructor; [apply He | exact IH]. }
  unfold storeSnapshot, bind, retryIfError. simpl.
  fold logger. fold w0.
  destruct (retryLoop _ _ _ w0) as [r w1] eqn:Hrun.
  destruct (snapshot_retry_run _ _ _ _ _ _ Hrun)
    as (new & Htr & Hall & Hh & Hn & Hq & Hd).
  destruct r as [[]|e]; simpl in *.
  - assert (Hhist : history w
              (log_event (EvLog logger "Snapshot stored") w1)
              = (EvLog logger "Storing the following snapshot envelope:"
                   :: new) ++ [EvLog logger "Snapshot stored"]).
    { apply history_app. simpl. rewrite Htr. simpl.
      by rewrite <- !app_assoc. }
    rewrite Hhist.
    assert (Hev : Forall (snapshot_event snapshotEnvelope
                            (deref w snapshotEnvelope))
                    ((EvLog logger "Storing the following snapshot envelope:"
                        :: new) ++ [EvLog logger "Snapshot stored"])).
    { apply Forall_app. split; [by constructor | by repeat constructor]. }
    split_and!; try done. by apply Hrefs.
  - assert (Hhist : history w w1
              = EvLog logger "Storing the following snapshot envelope:"
                  :: new).
    { apply history_app. rewrite Htr. simpl. by rewrite <- !app_assoc. }
    rewrite Hhist.
    assert (Hev : Forall (snapshot_event snapshotEnvelope
                            (deref w snapshotEnvelope))
                    (EvLog logger "Storing the following snapshot envelope:"
                       :: new)) by by constructor.
    split_and!; try done. by apply Hrefs.
Qed.

(** X6.  One record or none.  For a live snapshot envelope, [storeSnapshot]
    makes at least one store attempt and stops at the bound of the retry
    policy; when it succeeds the registry holds exactly one record more,
    the content of the envelope; when it fails the registry holds what it
    held, and the error is the one of the last attempt. *)
Theorem storeSnapshot_one_record_or_none
    (eventRegistry : EventRegistry) (snapshotEnvelope : loc)
    (config : BoosterConfig) (w : World) :
  live w snapshotEnvelope ->
  let run := storeSnapshot eventRegistry snapshotEnvelope config w in
  let attempts := store_attempts (history w (snd run)) in
  1 <= length attempts <= S (maxAttempts - 1)
  ∧ n_store (snd run) = n_store w + length attempts
  ∧ (fst run = Ok tt ->
       db (snd run) = db w ++ [deref w snapshotEnvelope])
  ∧ (forall e, fst run = Throw e ->
       db (snd run) = db w
       ∧ ∃ o, last attempts = Some (o, Some e)).
Proof.
  intros Hl run attempts. subst run attempts.
  destruct (storeSnapshot_run eventRegistry snapshotEnvelope config w Hl)
    as (new & Hst & Hsh & Hrec).
  rewrite (history_app w _ new) by apply Hst.
  pose proof (retry_shape_length _ _ _ Hsh) as Hlen.
  rewrite length_map in Hlen.
  rewrite (steps_db _ _ _ _ Hst), (steps_store _ _ _ _ Hst).
  split_and!; try done; try lia.
  - intros Hok. rewrite Hok in Hsh.
    destruct (retry_shape_ok_stored _ _ _ Hsh _ eq_refl eq_refl)
      as (o & Hin & Hsto).
    apply list_elem_of_fmap in Hin as (a & -> & Hin).
    rewrite Forall_forall in Hrec. rewrite (Hrec a Hin) in Hsto.
    unfold stored_records. by rewrite Hsto.
  - intros e He. rewrite He in Hsh. split.
    + unfold stored_records.
      rewrite (failed_block_stores_nothing (store_attempts new));
        [by rewrite app_nil_r |].
      by eapply retry_shape_failed.
    + destruct (retry_shape_last _ _ _ Hsh) as (out & Hlast & Hr).
      destruct out as [e'|]; simpl in Hr; [| discriminate].
      injection Hr as ->. rewrite fmap_last in Hlast.
      destruct (last (store_attempts new)) as [[o out]|]; simplify_eq/=.
      by exists o.
Qed.

End Snapshot.

(** ** [storeEvents]: what reaches the registry *)

Lemma persisted_stamped_copy (o : Obj) (t : string) :
  stamped_copy_of o (persisted o t).
Proof.
  unfold stamped_copy_of, persisted. split.
  - exists t. apply lookup_insert_eq.
  - intros name Hne. by apply lookup_insert_ne.
Qed.

Lemma sequential_records (n : nat) (objs : list Obj)
    (attempts : list Attempt) (r : Result unit) :
  sequential n objs attempts r ->
  Forall (fun a => ∃ o, o ∈ objs ∧ stamped_copy_of o (fst a)) attempts.
Proof.
  induction 1 as [|o os block rest r [Hsh Hrec] Hseq IH
                  |o os block e [Hsh Hrec]].
  - constructor.
  - apply Forall_app. split.
    + eapply Forall_impl; [exact Hrec |]. intros a [t ->].
      exists o. split; [apply list_elem_of_here |].
      apply persisted_stamped_copy.
    + eapply Forall_impl; [exact IH |]. intros a (o' & Hin & Hcopy).
      exists o'. split; [by apply list_elem_of_further | done].
  - eapply Forall_impl; [exact Hrec |]. intros a [t ->].
    exists o. split; [apply list_elem_of_here |].
    apply persisted_stamped_copy.
Qed.

Lemma sequential_prefix (n : nat) (objs : list Obj)
    (attempts : list Attempt) (r : Result unit) :
  sequential n objs attempts r ->
  ∃ ts, omap stored_of attempts = zip_with persisted objs ts
        ∧ length ts <= length objs
        ∧ (r = Ok tt -> length ts = length objs)
        ∧ (forall e, r = Throw e -> length ts < length objs).
Proof.
  induction 1 as [|o os block rest r Hb Hseq IH|o os block e [Hsh Hrec]].
  - by exists [].
  - destruct IH as (ts & Hsto & Hle & Hok & Hfail).
    destruct (retry_block_ok_stored _ _ _ Hb) as [t Ht].
    exists (t :: ts). rewrite omap_app, Ht, Hsto. simpl.
    split_and!; [done | lia | |].
    + intros Hr. rewrite (Hok Hr). done.
    + intros e Hr. specialize (Hfail e Hr). lia.
  - exists []. split_and!; simpl; [| lia | done | intros; lia].
    apply failed_block_stores_nothing. by eapply retry_shape_failed.
Qed.

Lemma sequential_failed_last (n : nat) (objs : list Obj)
    (attempts : list Attempt) (r : Result unit) :
  sequential n objs attempts r ->
  forall e, r = Throw e -> ∃ o, last attempts = Some (o, Some e).
Proof.
  induction 1 as [|o os block rest r Hb Hseq IH|o os block e [Hsh Hrec]];
    intros e' Hr; try discriminate.
  - destruct (IH e' Hr) as [o' Hlast]. exists o'.
    rewrite last_app, Hlast. done.
  - injection Hr as <-.
    destruct (retry_shape_last _ _ _ Hsh) as (out & Hlast & Hr).
    destruct out as [e'|]; simpl in Hr; [| discriminate].
    injection Hr as ->. rewrite fmap_last in Hlast.
    destruct (last block) as [[o' out]|]; simplify_eq/=. by exists o'.
Qed.

Lemma sequential_length (n : nat) (objs : list Obj)
    (attempts : list Attempt) (r : Result unit) :
  sequential n objs attempts r ->
  length attempts <= length objs * S n
  ∧ (r = Ok tt -> length objs <= length attempts).
Proof.
  induction 1 as [|o os block rest r [Hsh Hrec] Hseq IH
                  |o os block e [Hsh Hrec]].
  - simpl. split; [lia | done].
  - pose proof (retry_shape_length _ _ _ Hsh) as Hlen.
    rewrite length_map in Hlen. destruct IH as [Hle Hok].
    rewrite length_app. simpl. split; [lia |].
    intros Hr. specialize (Hok Hr). lia.
  - pose proof (retry_shape_length _ _ _ Hsh) as Hlen.
    rewrite length_map in Hlen. simpl. split; [lia | discriminate].
Qed.

#[local] Instance fresh_records_pre : PreOrder fresh_records.
Proof.
  split.
  - intros w. exists []. split_and!; [by rewrite app_nil_r | done |].
    constructor.
  - intros w1 w2 w3 (a & Ha & Hsa & Hfa) (b & Hb & Hsb & Hfb).
    exists (a ++ b). split_and!.
    + by rewrite Hb, Ha, app_assoc.
    + by etrans.
    + unfold store_refs. rewrite omap_app. apply Forall_app. split; [done |].
      eapply Forall_impl; [exact Hfb |]. intros record Hnone. simpl in *.
      destruct (heap w1 !! record) as [o|] eqn:Ho; [| done].
      by rewrite (lookup_weaken _ _ _ _ Ho Hsa) in Hnone.
Qed.

Section RecordsOfTheBatch.

Context {platform : Platform}.

Lemma storeEvents_fresh_records (userApp : UserApp)
    (eventRegistry : EventRegistry) (eventEnvelopes : list loc)
    (config : BoosterConfig) (w : World) :
  fresh_records w
    (snd (storeEvents userApp eventRegistry eventEnvelopes config w)).
Proof.
  apply (storeEvents_closed fresh_records).
  - intros logger message w1. exists [EvLog logger message].
    split_and!; [done | done | constructor].
  - intros w1. exists [EvBackoff]. split_and!; [done | done | constructor].
  - intros reg l w1. rewrite persistEvent_run. simpl. eexists.
    split_and!; [reflexivity | |].
    + apply insert_subseteq, fresh_not_live.
    + simpl. constructor; [apply fresh_not_live | constructor].
  - intros app batch w1. unfold boosterEventDispatcher. simpl. eexists.
    split_and!; [reflexivity | done | constructor].
Qed.

(** X7.  Only stamped copies of the batch reach the registry.  For a batch
    of live envelopes, every record [storeEvents] hands to the registry is
    a new object, at a reference that held nothing when the call began,
    with [persistedAt] set and every other property, the reference to the
    payload included, as in one envelope of the batch.  So every record the
    registry holds afterwards is one it held before or such a copy. *)
Theorem storeEvents_records_come_from_the_batch
    (userApp : UserApp) (eventRegistry : EventRegistry)
    (eventEnvelopes : list loc) (config : BoosterConfig) (w : World) :
  Forall (live w) eventEnvelopes ->
  let w' := snd (storeEvents userApp eventRegistry eventEnvelopes config w) in
  Forall (fun a => ∃ l, l ∈ eventEnvelopes
                        ∧ stamped_copy_of (deref w l) (fst a))
         (store_attempts (history w w'))
  ∧ Forall (fun record => heap w !! record = None)
           (store_refs (history w w'))
  ∧ forall record, record ∈ db w' ->
      record ∈ db w
      ∨ ∃ l, l ∈ eventEnvelopes ∧ stamped_copy_of (deref w l) record.
Proof.
  intros Hlive w'. subst w'.
  destruct (storeEvents_fresh_records userApp eventRegistry eventEnvelopes
              config w) as (new' & Htr' & _ & Hfresh).
  rewrite (history_app _ _ _ Htr').
  destruct (storeEvents_run eventRegistry userApp eventEnvelopes config w
              Hlive) as (w_mid & new & r_store & Hst & Hseq & Hrun).
  pose proof (sequential_records _ _ _ _ Hseq) as Hrec.
  assert (Hfrom : Forall (fun a => ∃ l, l ∈ eventEnvelopes
                            ∧ stamped_copy_of (deref w l) (fst a))
                    (store_attempts new)).
  { eapply Forall_impl; [exact Hrec |]. intros a (o & Hin & Hcopy).
    apply list_elem_of_fmap in Hin as (l & -> & Hin). by exists l. }
  assert (Hdb : forall record, record ∈ db w_mid ->
            record ∈ db w
            ∨ ∃ l, l ∈ eventEnvelopes ∧ stamped_copy_of (deref w l) record).
  { intros record. rewrite (steps_db _ _ _ _ Hst).
    intros [Hold | Hnew]%elem_of_app; [by left | right].
    unfold stored_records in Hnew.
    apply list_elem_of_omap in Hnew as ([o out] & Hin & Hsto).
    rewrite Forall_forall in Hfrom. destruct (Hfrom _ Hin) as (l & Hl & Hc).
    destruct out; simplify_eq/=. by exists l. }
  destruct r_store as [[]|e]; rewrite Hrun in Htr' |- *; simpl in *.
  - apply app_inv_head in Htr'. subst new'.
    rewrite store_attempts_app. simpl. rewrite app_nil_r. by split_and!.
  - rewrite (steps_trace _ _ _ _ Hst) in Htr'.
    apply app_inv_head in Htr'. subst new'. by split_and!.
Qed.

(** X8.  What is stored is a prefix of the batch.  However [storeEvents]
    ends, the registry holds, after what it held before, the stamped copies
    of the first envelopes of the batch, in the order of the batch, one
    record for each; all of the batch exactly when the dispatcher has been
    called. *)
Theorem storeEvents_stores_a_prefix
    (userApp : UserApp) (eventRegistry : EventRegistry)
    (eventEnvelopes : list loc) (config : BoosterConfig) (w : World) :
  Forall (live w) eventEnvelopes ->
  let w' := snd (storeEvents userApp eventRegistry eventEnvelopes config w) in
  ∃ ts : list string,
    db w' = db w ++ zip_with persisted (map (deref w) eventEnvelopes) ts
    ∧ length ts <= length eventEnvelopes
    ∧ (length ts = length eventEnvelopes
       <-> dispatch_calls (history w w') ≠ []).
Proof.
  intros Hlive w'. subst w'.
  destruct (storeEvents_run eventRegistry userApp eventEnvelopes config w
              Hlive) as (w_mid & new & r_store & Hst & Hseq & Hrun).
  destruct (sequential_prefix _ _ _ _ Hseq) as (ts & Hsto & Hle & Hok & Hfail).
  rewrite length_map in Hle, Hok, Hfail.
  exists ts. destruct r_store as [[]|e]; rewrite Hrun; simpl.
  - rewrite (history_app w _ (new ++ [EvDispatch eventEnvelopes
               (map (deref w) eventEnvelopes)
               (dispatch_outcome userApp (n_dispatch w))])) by done.
    rewrite dispatch_calls_app, (steps_db _ _ _ _ Hst). simpl.
    unfold stored_records. rewrite Hsto.
    split_and!; [done | done |]. split; [| by intros; apply Hok].
    intros _. by destruct (dispatch_calls new).
  - rewrite (history_app w w_mid new) by apply Hst.
    rewrite (steps_db _ _ _ _ Hst), (steps_no_dispatch _ _ _ _ Hst).
    unfold stored_records. rewrite Hsto.
    split_and!; [done | done |]. specialize (Hfail e eq_refl).
    split; [lia | done].
Qed.

(** X9.  One dispatch at most, and no error of its own.  A call of
    [storeEvents] on live envelopes ends in one of two ways.  Either the
    dispatcher is not called, and [storeEvents] fails with the error of the
    last store attempt.  Or the dispatcher is called once, with the array
    of the caller, as the last thing that happens, and [storeEvents]
    settles as that call does.  In both cases no query is made. *)
Theorem storeEvents_ends_in_store_error_or_dispatch
    (userApp : UserApp) (eventRegistry : EventRegistry)
    (eventEnvelopes : list loc) (config : BoosterConfig) (w : World) :
  Forall (live w) eventEnvelopes ->
  let run := storeEvents userApp eventRegistry eventEnvelopes config w in
  let outcome := dispatch_outcome userApp (n_dispatch w) in
  n_query (snd run) = n_query w
  ∧ ((dispatch_calls (history w (snd run)) = []
      ∧ n_dispatch (snd run) = n_dispatch w
      ∧ ∃ e o, fst run = Throw e
               ∧ last (store_attempts (history w (snd run)))
                 = Some (o, Some e))
     ∨ (∃ before,
          history w (snd run)
          = before ++ [EvDispatch eventEnvelopes
                         (map (deref w) eventEnvelopes) outcome]
          ∧ dispatch_calls before = []
          ∧ n_dispatch (snd run) = S (n_dispatch w)
          ∧ fst run = settle outcome)).
Proof.
  intros Hlive run outcome. subst run outcome.
  destruct (storeEvents_run eventRegistry userApp eventEnvelopes config w
              Hlive) as (w_mid & new & r_store & Hst & Hseq & Hrun).
  destruct r_store as [[]|e]; rewrite Hrun; simpl.
  - split; [done |]. right. exists new. split_and!; try done.
    + by apply history_app.
    + apply Hst.
  - split; [apply Hst |]. left.
    rewrite (history_app w w_mid new) by apply Hst.
    destruct (sequential_failed_last _ _ _ _ Hseq e eq_refl) as [o Hlast].
    split_and!; [apply Hst | apply Hst |]. by exists e, o.
Qed.

(** X10.  The work of a call is bounded.  With a bound of at least one
    attempt, [storeEvents] on live envelopes makes at most [maxAttempts]
    store calls per envelope of the batch, and at least one per envelope
    when it reaches the dispatcher. *)
Theorem storeEvents_attempts_bounded
    (userApp : UserApp) (eventRegistry : EventRegistry)
    (eventEnvelopes : list loc) (config : BoosterConfig) (w : World) :
  0 < maxAttempts ->
  Forall (live w) eventEnvelopes ->
  let w' := snd (storeEvents userApp eventRegistry eventEnvelopes config w) in
  let attempts := store_attempts (history w w') in
  n_store w' = n_store w + length attempts
  ∧ length attempts <= length eventEnvelopes * maxAttempts
  ∧ (dispatch_calls (history w w') ≠ [] ->
       length eventEnvelopes <= length attempts).
Proof.
  intros Hpos Hlive w' attempts. subst w' attempts.
  destruct (storeEvents_run eventRegistry userApp eventEnvelopes config w
              Hlive) as (w_mid & new & r_store & Hst & Hseq & Hrun).
  destruct (sequential_length _ _ _ _ Hseq) as [Hle Hok].
  rewrite length_map in Hle, Hok.
  replace (S (maxAttempts - 1)) with maxAttempts in Hle by lia.
  destruct r_store as [[]|e]; rewrite Hrun; simpl.
  - rewrite (history_app w _ (new ++ [EvDispatch eventEnvelopes
               (map (deref w) eventEnvelopes)
               (dispatch_outcome userApp (n_dispatch w))])) by done.
    rewrite store_attempts_app. simpl. rewrite app_nil_r.
    split_and!; [apply Hst | done | intros _; by apply Hok].
  - rewrite (history_app w w_mid new) by apply Hst.
    rewrite (steps_no_dispatch _ _ _ _ Hst).
    split_and!; [apply Hst | done | done].
Qed.

End RecordsOfTheBatch.

(** ** Store, then read *)

Lemma matches_persisted (q : Query) (o : Obj) (t : string) :
  matches q (persisted o t) = matches q o.
Proof.
  unfold matches, persisted, strProp.
  by rewrite !lookup_insert_ne by done.
Qed.

Lemma matches_stamped_copy (q : Query) (o record : Obj) :
  stamped_copy_of o record -> matches q record = matches q o.
Proof.
  intros [_ Hsame]. unfold matches, strProp.
  by rewrite !Hsame by done.
Qed.

Lemma elem_of_sort_by_createdAt (x : Obj) (l : list Obj) :
  x ∈ sort_by_createdAt l <-> x ∈ l.
Proof. by rewrite sort_by_createdAt_perm. Qed.



Lemma filter_none {A} (P : A -> Prop) `{forall x, Decision (P x)}
    (l : list A) :
  Forall (fun x => ¬ P x) l -> filter P l = [].
Proof.
  induction 1 as [|x l Hx Hall IH]; [done |].
  rewrite filter_cons. by destruct (decide (P x)).
Qed.

Lemma matches_other_entity (q : Query) (o : Obj) :
  o !! "entityID" ≠ Some (VStr (q_entityID q)) -> matches q o = false.
Proof.
  intros Hne. unfold matches.
  by rewrite (bool_decide_eq_false_2 _ Hne).
Qed.

Lemma matches_other_kind (q : Query) (o : Obj) :
  o !! "kind" ≠ Some (VStr (q_kind q)) -> matches q o = false.
Proof.
  intros Hne. unfold matches.
  rewrite (bool_decide_eq_false_2 (o !! "kind" = _) Hne).
  by rewrite andb_false_r.
Qed.

Section StoreThenRead.

Context {platform : Platform}.

Lemma storeEvents_db (userApp : UserApp) (eventRegistry : EventRegistry)
    (eventEnvelopes : list loc) (config : BoosterConfig) (w : World) :
  Forall (live w) eventEnvelopes ->
  let run := storeEvents userApp eventRegistry eventEnvelopes config w in
  n_query (snd run) = n_query w
  ∧ ∃ ts : list string,
      db (snd run)
      = db w ++ zip_with persisted (map (deref w) eventEnvelopes) ts
      ∧ (fst run = Ok tt -> length ts = length eventEnvelopes).
Proof.
  intros Hlive run. subst run.
  destruct (storeEvents_run eventRegistry userApp eventEnvelopes config w
              Hlive) as (w_mid & new & r_store & Hst & Hseq & Hrun).
  destruct (sequential_prefix _ _ _ _ Hseq) as (ts & Hsto & Hle & Hok & Hfail).
  rewrite length_map in Hok.
  destruct r_store as [[]|e]; rewrite Hrun; simpl.
  - split; [done |]. exists ts. rewrite (steps_db _ _ _ _ Hst).
    unfold stored_records. rewrite Hsto. split; [done |]. by intros; apply Hok.
  - split; [apply Hst |]. exists ts. rewrite (steps_db _ _ _ _ Hst).
    unfold stored_records. rewrite Hsto. split; [done | discriminate].
Qed.

(** X11.  Events stored are events read.  After [storeEvents] has succeeded
    on a batch of live envelopes, and with a registry that answers,
    [readEntityEventsSince] returns every event it returned before the
    call, and for every envelope of the batch that the query selects (the
    entity, the kind ["event"], a [createdAt] after the bound) a stamped
    copy of it; and it returns nothing else. *)
Theorem storeEvents_then_readEntityEventsSince
    (userApp : UserApp) (eventRegistry : EventRegistry)
    (eventEnvelopes : list loc) (config : BoosterConfig)
    (entityTypeName entityID : string) (since : option string) (w : World) :
  Forall (live w) eventEnvelopes ->
  fst (storeEvents userApp eventRegistry eventEnvelopes config w) = Ok tt ->
  query_outcome eventRegistry (n_query w) = None ->
  let w' := snd (storeEvents userApp eventRegistry eventEnvelopes config w) in
  let q := eventsQuery entityTypeName entityID since in
  ∃ before after,
    fst (readEntityEventsSince eventRegistry config entityTypeName entityID
           since w) = Ok before
    ∧ fst (readEntityEventsSince eventRegistry config entityTypeName
             entityID since w') = Ok after
    ∧ (forall ev, ev ∈ before -> ev ∈ after)
    ∧ (forall l, l ∈ eventEnvelopes -> matches q (deref w l) = true ->
         ∃ ev, ev ∈ after ∧ stamped_copy_of (deref w l) ev)
    ∧ (forall ev, ev ∈ after ->
         ev ∈ before
         ∨ ∃ l, l ∈ eventEnvelopes ∧ matches q (deref w l) = true
                ∧ stamped_copy_of (deref w l) ev).
Proof.
  intros Hlive Hok Hq w' q. subst w'.
  destruct (storeEvents_db userApp eventRegistry eventEnvelopes config w
              Hlive) as (Hnq & ts & Hdb & Hlen).
  specialize (Hlen Hok).
  rewrite !readEntityEventsSince_run, Hnq, Hq, Hdb. simpl. fold q.
  eexists _, _. split_and!; [reflexivity | reflexivity | | |].
  - intros ev. rewrite !elem_of_sort_by_createdAt, filter_app, elem_of_app.
    by left.
  - intros l Hl Hm.
    apply list_elem_of_lookup in Hl as [i Hi].
    destruct (lookup_lt_is_Some_2 ts i) as [t Ht].
    { rewrite Hlen. by eapply lookup_lt_Some. }
    exists (persisted (deref w l) t).
    split; [| apply persisted_stamped_copy].
    rewrite elem_of_sort_by_createdAt, filter_app, elem_of_app. right.
    apply list_elem_of_filter. split.
    + apply Is_true_true. by rewrite matches_persisted.
    + apply list_elem_of_lookup. exists i.
      rewrite lookup_zip_with, list_lookup_fmap, Hi, Ht. done.
  - intros ev. rewrite !elem_of_sort_by_createdAt, filter_app, elem_of_app.
    intros [Hold | Hnew]; [by left | right].
    apply list_elem_of_filter in Hnew as [Hm Hin].
    apply Is_true_true in Hm.
    apply list_elem_of_lookup in Hin as [i Hi].
    rewrite lookup_zip_with, list_lookup_fmap in Hi.
    destruct (eventEnvelopes !! i) as [l|] eqn:Hl; [| done]. simpl in Hi.
    destruct (ts !! i) as [t|]; [| done]. simpl in Hi. injection Hi as <-.
    exists l. rewrite matches_persisted in Hm.
    split_and!; [by eapply list_elem_of_lookup_2 | done |].
    apply persisted_stamped_copy.
Qed.

(** X12.  A store leaves the other reads alone.  However [storeEvents] on
    a batch of live envelopes ends: if no envelope of the batch has the
    entity ID asked for, [readEntityEventsSince] and
    [readEntityLatestSnapshot] for that entity give afterwards what they
    gave before; and if no envelope of the batch has the kind
    ["snapshot"], [readEntityLatestSnapshot] gives afterwards what it gave
    before, for every entity. *)
Theorem storeEvents_keeps_other_reads
    (userApp : UserApp) (eventRegistry : EventRegistry)
    (eventEnvelopes : list loc) (config : BoosterConfig)
    (entityTypeName entityID : string) (since : option string) (w : World) :
  Forall (live w) eventEnvelopes ->
  let w' := snd (storeEvents userApp eventRegistry eventEnvelopes config w) in
  (Forall (fun l => deref w l !! "entityID" ≠ Some (VStr entityID))
          eventEnvelopes ->
   fst (readEntityEventsSince eventRegistry config entityTypeName entityID
          since w')
   = fst (readEntityEventsSince eventRegistry config entityTypeName entityID
            since w)
   ∧ fst (readEntityLatestSnapshot eventRegistry config entityTypeName
            entityID w')
     = fst (readEntityLatestSnapshot eventRegistry config entityTypeName
              entityID w))
  ∧ (Forall (fun l => deref w l !! "kind" ≠ Some (VStr "snapshot"))
            eventEnvelopes ->
     fst (readEntityLatestSnapshot eventRegistry config entityTypeName
            entityID w')
     = fst (readEntityLatestSnapshot eventRegistry config entityTypeName
              entityID w)).
Proof.
  intros Hlive w'. subst w'.
  destruct (storeEvents_db userApp eventRegistry eventEnvelopes config w
              Hlive) as (Hnq & ts & Hdb & _).
  assert (Hnone : forall q,
            Forall (fun l => matches q (deref w l) = false) eventEnvelopes ->
            filter (fun o => matches q o)
                   (db w ++ zip_with persisted
                              (map (deref w) eventEnvelopes) ts)
            = filter (fun o => matches q o) (db w)).
  { intros q Hall. rewrite filter_app.
    rewrite (filter_none (fun o => matches q o)
               (zip_with persisted (map (deref w) eventEnvelopes) ts));
      [by rewrite app_nil_r |].
    apply Forall_forall. intros record Hin.
    apply elem_of_zip_with in Hin as (o & t & -> & Ho & _).
    apply list_elem_of_fmap in Ho as (l & -> & Hl).
    rewrite Forall_forall in Hall.
    rewrite matches_persisted, (Hall l Hl). simpl. tauto. }
  rewrite !readEntityEventsSince_run, !readEntityLatestSnapshot_run.
  rewrite Hnq, Hdb. cbv zeta.
  split.
  - intros Hother.
    rewrite !Hnone.
    + by destruct (query_outcome eventRegistry (n_query w)).
    + eapply Forall_impl; [exact Hother |]. intros l Hl.
      by apply matches_other_entity.
    + eapply Forall_impl; [exact Hother |]. intros l Hl.
      by apply matches_other_entity.
  - intros Hkind. rewrite Hnone.
    + by destruct (query_outcome eventRegistry (n_query w)).
    + eapply Forall_impl; [exact Hkind |]. intros l Hl.
      by apply matches_other_kind.
Qed.

Lemma storeSnapshot_db (eventRegistry : EventRegistry)
    (snapshotEnvelope : loc) (config : BoosterConfig) (w : World) :
  live w snapshotEnvelope ->
  let run := storeSnapshot eventRegistry snapshotEnvelope config w in
  n_query (snd run) = n_query w
  ∧ (fst run = Ok tt -> db (snd run) = db w ++ [deref w snapshotEnvelope])
  ∧ (forall e, fst run = Throw e -> db (snd run) = db w).
Proof.
  intros Hl run. subst run.
  destruct (storeSnapshot_run eventRegistry snapshotEnvelope config w Hl)
    as (new & Hst & Hsh & Hrec).
  rewrite (steps_db _ _ _ _ Hst). split_and!; [apply Hst | |].
  - intros Hok. rewrite Hok in Hsh.
    destruct (retry_shape_ok_stored _ _ _ Hsh _ eq_refl eq_refl)
      as (o & Hin & Hsto).
    apply list_elem_of_fmap in Hin as (a & -> & Hin).
    rewrite Forall_forall in Hrec. rewrite (Hrec a Hin) in Hsto.
    unfold stored_records. by rewrite Hsto.
  - intros e He. rewrite He in Hsh. unfold stored_records.
    rewrite (failed_block_stores_nothing (store_attempts new));
      [by rewrite app_nil_r |].
    by eapply retry_shape_failed.
Qed.


(** X14.  A snapshot store leaves the events alone.  However
    [storeSnapshot] on a live envelope ends, if the envelope does not have
    the kind ["event"], [readEntityEventsSince] gives afterwards what it
    gave before, for every entity and every bound. *)
Theorem storeSnapshot_keeps_event_reads
    (eventRegistry : EventRegistry) (snapshotEnvelope : loc)
    (config : BoosterConfig) (entityTypeName entityID : string)
    (since : option string) (w : World) :
  live w snapshotEnvelope ->
  deref w snapshotEnvelope !! "kind" ≠ Some (VStr "event") ->
  fst (readEntityEventsSince eventRegistry config entityTypeName entityID
         since
         (snd (storeSnapshot eventRegistry snapshotEnvelope config w)))
  = fst (readEntityEventsSince eventRegistry config entityTypeName entityID
           since w).
Proof.
  intros Hl Hkind.
  destruct (storeSnapshot_db eventRegistry snapshotEnvelope config w Hl)
    as (Hnq & Hok & Hfail).
  rewrite !readEntityEventsSince_run, Hnq. cbv zeta.
  destruct (fst (storeSnapshot eventRegistry snapshotEnvelope config w))
    as [[]|e] eqn:Hrun.
  - rewrite (Hok eq_refl), filter_app.
    rewrite (filter_none _ [deref w snapshotEnvelope]).
    + rewrite app_nil_r.
      by destruct (query_outcome eventRegistry (n_query w)).
    + constructor; [| constructor].
      rewrite (matches_other_kind
                 (eventsQuery entityTypeName entityID since) _ Hkind).
      simpl. tauto.
  - rewrite (Hfail e eq_refl).
    by destruct (query_outcome eventRegistry (n_query w)).
Qed.

End StoreThenRead.

(** * The scenario, run through the further properties *)

Lemma sample_snapshot_live : live sampleWorld 4.
Proof. by vm_compute. Qed.

Lemma retriedRun_ok : fst retriedRun = Ok tt.
Proof. vm_compute. reflexivity. Qed.

Lemma reads_are_repeatable_witness :
  query_outcome healthyRegistry (S (n_query sampleStoredWorld))
  = query_outcome healthyRegistry (n_query sampleStoredWorld)
  ∧ fst (readEntityLatestSnapshot healthyRegistry sampleConfig "Order"
           "order-1"
           (snd (readEntityLatestSnapshot healthyRegistry sampleConfig
                   "Order" "order-1" sampleStoredWorld)))
    = fst (readEntityLatestSnapshot healthyRegistry sampleConfig "Order"
             "order-1" sampleStoredWorld)
  ∧ fst (readEntityEventsSince healthyRegistry sampleConfig "Order"
           "order-1" None
           (snd (readEntityEventsSince healthyRegistry sampleConfig "Order"
                   "order-1" None sampleStoredWorld)))
    = fst (readEntityEventsSince healthyRegistry sampleConfig "Order"
             "order-1" None sampleStoredWorld).
Proof.
  assert (Hsame : query_outcome healthyRegistry (S (n_query sampleStoredWorld))
                  = query_outcome healthyRegistry (n_query sampleStoredWorld))
    by reflexivity.
  split; [exact Hsame |].
  exact (reads_are_repeatable healthyRegistry sampleConfig "Order" "order-1"
           None sampleStoredWorld Hsame).
Defined.

Lemma storeSnapshot_one_record_or_none_witness :
  live sampleWorld 4
  ∧ 1 <= length (store_attempts
                   (history sampleWorld
                      (snd (storeSnapshot (platform := samplePlatform)
                              (conflictsThenOk 1) 4 sampleConfig
                              sampleWorld))))
       <= S (maxAttempts (Platform := samplePlatform) - 1)
  ∧ n_store (snd (storeSnapshot (platform := samplePlatform)
                    (conflictsThenOk 1) 4 sampleConfig sampleWorld))
    = n_store sampleWorld
      + length (store_attempts
                  (history sampleWorld
                     (snd (storeSnapshot (platform := samplePlatform)
                             (conflictsThenOk 1) 4 sampleConfig
                             sampleWorld))))
  ∧ db (snd (storeSnapshot (platform := samplePlatform) (conflictsThenOk 1)
               4 sampleConfig sampleWorld))
    = db sampleWorld ++ [deref sampleWorld 4].
Proof.
  assert (Hok : fst (storeSnapshot (platform := samplePlatform)
                       (conflictsThenOk 1) 4 sampleConfig sampleWorld)
                = Ok tt) by (vm_compute; reflexivity).
  destruct (storeSnapshot_one_record_or_none (platform := samplePlatform)
              (conflictsThenOk 1) 4 sampleConfig sampleWorld
              sample_snapshot_live) as (Hlen & Hn & Hdb & _).
  exact (conj sample_snapshot_live (conj Hlen (conj Hn (Hdb Hok)))).
Defined.

Lemma storeEvents_records_come_from_the_batch_witness :
  Forall (live sampleWorld) [1; 2]%positive
  ∧ Forall (fun a => ∃ l, l ∈ [1; 2]%positive
                          ∧ stamped_copy_of (deref sampleWorld l) (fst a))
           (store_attempts (history sampleWorld (snd retriedRun)))
  ∧ Forall (fun record => heap sampleWorld !! record = None)
           (store_refs (history sampleWorld (snd retriedRun)))
  ∧ forall record, record ∈ db (snd retriedRun) ->
      record ∈ db sampleWorld
      ∨ ∃ l, l ∈ [1; 2]%positive
             ∧ stamped_copy_of (deref sampleWorld l) record.
Proof.
  split; [exact sample_pair_live |].
  exact (storeEvents_records_come_from_the_batch (platform := samplePlatform)
           healthyApp (conflictsThenOk 1) [1; 2]%positive sampleConfig
           sampleWorld sample_pair_live).
Defined.

Lemma storeEvents_stores_a_prefix_witness :
  Forall (live sampleWorld) [1; 2; 3]%positive
  ∧ ∃ ts : list string,
      db (snd stuckRun)
      = db sampleWorld
        ++ zip_with persisted (map (deref sampleWorld) [1; 2; 3]%positive) ts
      ∧ length ts <= length [1; 2; 3]%positive
      ∧ (length ts = length [1; 2; 3]%positive
         <-> dispatch_calls (history sampleWorld (snd stuckRun)) ≠ []).
Proof.
  split; [exact sample_batch_live |].
  exact (storeEvents_stores_a_prefix (platform := samplePlatform) healthyApp
           onlySecondCallSucceeds [1; 2; 3]%positive sampleConfig sampleWorld
           sample_batch_live).
Defined.

Lemma storeEvents_ends_witness :
  Forall (live sampleWorld) [1; 2; 3]%positive
  ∧ n_query (snd stuckRun) = n_query sampleWorld
  ∧ ((dispatch_calls (history sampleWorld (snd stuckRun)) = []
      ∧ n_dispatch (snd stuckRun) = n_dispatch sampleWorld
      ∧ ∃ e o, fst stuckRun = Throw e
               ∧ last (store_attempts (history sampleWorld (snd stuckRun)))
                 = Some (o, Some e))
     ∨ (∃ before,
          history sampleWorld (snd stuckRun)
          = before ++ [EvDispatch [1; 2; 3]%positive
                         (map (deref sampleWorld) [1; 2; 3]%positive)
                         (dispatch_outcome healthyApp
                            (n_dispatch sampleWorld))]
          ∧ dispatch_calls before = []
          ∧ n_dispatch (snd stuckRun) = S (n_dispatch sampleWorld)
          ∧ fst stuckRun
            = settle (dispatch_outcome healthyApp
                        (n_dispatch sampleWorld)))).
Proof.
  split; [exact sample_batch_live |].
  exact (storeEvents_ends_in_store_error_or_dispatch
           (platform := samplePlatform) healthyApp onlySecondCallSucceeds
           [1; 2; 3]%positive sampleConfig sampleWorld sample_batch_live).
Defined.

Lemma storeEvents_attempts_bounded_witness :
  0 < maxAttempts (Platform := samplePlatform)
  ∧ Forall (live sampleWorld) [1; 2; 3]%positive
  ∧ n_store (snd stuckRun)
    = n_store sampleWorld
      + length (store_attempts (history sampleWorld (snd stuckRun)))
  ∧ length (store_attempts (history sampleWorld (snd stuckRun)))
    <= length [1; 2; 3]%positive * maxAttempts (Platform := samplePlatform)
  ∧ (dispatch_calls (history sampleWorld (snd stuckRun)) ≠ [] ->
       length [1; 2; 3]%positive
       <= length (store_attempts (history sampleWorld (snd stuckRun)))).
Proof.
  assert (Hpos : 0 < maxAttempts (Platform := samplePlatform))
    by (simpl; lia).
  split; [exact Hpos | split; [exact sample_batch_live |]].
  exact (storeEvents_attempts_bounded (platform := samplePlatform) healthyApp
           onlySecondCallSucceeds [1; 2; 3]%positive sampleConfig sampleWorld
           Hpos sample_batch_live).
Defined.

Lemma storeEvents_then_read_witness :
  (Forall (live sampleWorld) [1; 2]%positive
   ∧ fst retriedRun = Ok tt
   ∧ query_outcome (conflictsThenOk 1) (n_query sampleWorld) = None)
  ∧ ∃ before after,
      fst (readEntityEventsSince (conflictsThenOk 1) sampleConfig "Order"
             "order-1" None sampleWorld) = Ok before
      ∧ fst (readEntityEventsSince (conflictsThenOk 1) sampleConfig "Order"
               "order-1" None (snd retriedRun)) = Ok after
      ∧ (forall ev, ev ∈ before -> ev ∈ after)
      ∧ (forall l, l ∈ [1; 2]%positive ->
           matches (eventsQuery "Order" "order-1" None)
             (deref sampleWorld l) = true ->
           ∃ ev, ev ∈ after ∧ stamped_copy_of (deref sampleWorld l) ev)
      ∧ (forall ev, ev ∈ after ->
           ev ∈ before
           ∨ ∃ l, l ∈ [1; 2]%positive
                  ∧ matches (eventsQuery "Order" "order-1" None)
                      (deref sampleWorld l) = true
                  ∧ stamped_copy_of (deref sampleWorld l) ev).
Proof.
  assert (Hq : query_outcome (conflictsThenOk 1) (n_query sampleWorld)
               = None) by reflexivity.
  split; [split_and!; [exact sample_pair_live | exact retriedRun_ok
                      | exact Hq] |].
  exact (storeEvents_then_readEntityEventsSince (platform := samplePlatform)
           healthyApp (conflictsThenOk 1) [1; 2]%positive sampleConfig
           "Order" "order-1" None sampleWorld sample_pair_live retriedRun_ok
           Hq).
Defined.

Lemma storeEvents_keeps_other_reads_witness :
  (Forall (live sampleWorld) [1; 2]%positive
   ∧ Forall (fun l => deref sampleWorld l !! "entityID"
                      ≠ Some (VStr "order-2")) [1; 2]%positive
   ∧ Forall (fun l => deref sampleWorld l !! "kind"
                      ≠ Some (VStr "snapshot")) [1; 2]%positive)
  ∧ (fst (readEntityEventsSince (conflictsThenOk 1) sampleConfig "Order"
            "order-2" None (snd retriedRun))
     = fst (readEntityEventsSince (conflictsThenOk 1) sampleConfig "Order"
              "order-2" None sampleWorld)
     ∧ fst (readEntityLatestSnapshot (conflictsThenOk 1) sampleConfig
              "Order" "order-2" (snd retriedRun))
       = fst (readEntityLatestSnapshot (conflictsThenOk 1) sampleConfig
                "Order" "order-2" sampleWorld))
  ∧ fst (readEntityLatestSnapshot (conflictsThenOk 1) sampleConfig "Order"
           "order-2" (snd retriedRun))
    = fst (readEntityLatestSnapshot (conflictsThenOk 1) sampleConfig "Order"
             "order-2" sampleWorld).
Proof.
  assert (Hother : Forall (fun l => deref sampleWorld l !! "entityID"
                                    ≠ Some (VStr "order-2"))
                     [1; 2]%positive)
    by (repeat constructor; by vm_compute).
  assert (Hkind : Forall (fun l => deref sampleWorld l !! "kind"
                                   ≠ Some (VStr "snapshot"))
                    [1; 2]%positive)
    by (repeat constructor; by vm_compute).
  split; [split_and!; [exact sample_pair_live | exact Hother | exact Hkind] |].
  destruct (storeEvents_keeps_other_reads (platform := samplePlatform)
              healthyApp (conflictsThenOk 1) [1; 2]%positive sampleConfig
              "Order" "order-2" None sampleWorld sample_pair_live)
    as [Hentity Hsnap].
  exact (conj (Hentity Hother) (Hsnap Hkind)).
Defined.


Lemma storeSnapshot_keeps_event_reads_witness :
  (live sampleWorld 4
   ∧ deref sampleWorld 4 !! "kind" ≠ Some (VStr "event"))
  ∧ fst (readEntityEventsSince (conflictsThenOk 1) sampleConfig "Order"
           "order-1" None
           (snd (storeSnapshot (platform := samplePlatform)
                   (conflictsThenOk 1) 4 sampleConfig sampleWorld)))
    = fst (readEntityEventsSince (conflictsThenOk 1) sampleConfig "Order"
             "order-1" None sampleWorld).
Proof.
  assert (Hkind : deref sampleWorld 4 !! "kind" ≠ Some (VStr "event"))
    by (by vm_compute).
  split; [split; [exact sample_snapshot_live | exact Hkind] |].
  exact (storeSnapshot_keeps_event_reads (platform := samplePlatform)
           (conflictsThenOk 1) 4 sampleConfig "Order" "order-1" None
           sampleWorld sample_snapshot_live Hkind).
Defined.
